(** * async-fetcher: a one-shot asynchronous computation handle

    A shallow embedding of [async/fetcher.go] and the properties of its
    handle state machine (created, started, completed), of the
    cancellation-aware merging of results and of the panic-recovery path.

    Goroutines are threads of a small interleaving machine: a world holds
    the heap of [Fetcher] values, the goroutines spawned by [Run], the
    global panic handlers, a trace of observable events and a logical
    clock.  One machine step is one atomic section of the source. *)

From stdpp Require Import base list strings pretty.
From Stdlib Require Import ZArith Lia.
From Equations Require Import Equations.

(** ** Go values *)

(** A non-nil value of Go's [error] interface, known by its message. *)
Record goerror := MkError { Error : string }.

(** Go's [error]: [None] is the nil interface. *)
Definition error := option goerror.

(** A non-nil [interface{}] value, as handed to [panic] and returned by
    [recover].  Since Go 1.21 a goroutine that is panicking always
    recovers a non-nil value. *)
Inductive any :=
| AnyString (s : string)
| AnyInt (n : Z)
| AnyError (e : goerror).

(** The [%v] verb of package [fmt] on these values. *)
Definition fmt_v (r : any) : string :=
  match r with
  | AnyString s => s
  | AnyInt n => pretty n
  | AnyError e => Error e
  end.

(** [fmt.Errorf(format + "%v", r)] for a format that ends in the verb. *)
Definition Errorf (format : string) (r : any) : goerror :=
  MkError (format +:+ fmt_v r).

(** The zero value of a Go type. *)
Class Zero (T : Type) := zero : T.
Global Instance zero_string : Zero string := EmptyString.
Global Instance zero_Z : Zero Z := 0%Z.
Global Instance zero_bool : Zero bool := false.
Global Instance zero_nat : Zero nat := 0.

(** ** context.Context

    The handle only observes its context.  A context is described by the
    instant at which it fires (never, for [context.Background()]) and by
    the terminal error it reports from then on. *)
Record Context := MkContext {
  fires : option (nat * goerror)
}.

(** [ctx.Err()] read at instant [t]: nil before the context fires, the
    terminal error afterwards and for ever. *)
Definition ctx_Err (ctx : Context) (t : nat) : error :=
  match fires ctx with
  | Some (c, e) => if c <=? t then Some e else None
  | None => None
  end.

(** Whether a receive on [ctx.Done()] is ready at instant [t]. *)
Definition ctx_Done (ctx : Context) (t : nat) : bool :=
  match ctx_Err ctx t with Some _ => true | None => false end.

Definition Canceled : goerror := MkError "context canceled".
Definition DeadlineExceeded : goerror := MkError "context deadline exceeded".

(** [context.Background()] never fires. *)
Definition Background : Context := MkContext None.

(** ** Functions supplied by the caller *)

(** What a call of the wrapped function does when it is entered at a
    given instant: it returns a value and an error after [d] ticks, it
    panics with a payload after [d] ticks, or it never comes back. *)
Inductive Behaviour (T : Type) :=
| Returns (d : nat) (val : T) (err : error)
| Panics (d : nat) (r : any)
| Hangs.
Arguments Returns {T} d val err.
Arguments Panics {T} d r.
Arguments Hangs {T}.

(** A panic handler, [func(context.Context, interface{})], either returns
    or panics in turn. *)
Inductive HandlerOutcome :=
| HReturns
| HPanics (r : any).

Record Handler := MkHandler {
  h_name : string;
  h_call : Context -> any -> HandlerOutcome
}.

(** ** The data of fetcher.go *)

(** [Result[T]] *)
Record Result (T : Type) := MkResult {
  Value : T;
  Err : error
}.
Arguments MkResult {T} Value Err.
Arguments Value {T} r.
Arguments Err {T} r.

(** A [chan struct{}] on which nothing is ever sent: it is open or
    closed. *)
Inductive chan := Open | Closed.

(** [make(chan struct{})] *)
Definition make_chan : chan := Open.

(** [ToPtr(v)]: a pointer is [None] when nil. *)
Definition ToPtr {X : Type} (v : X) : option X := Some v.

(** [Fetcher[T, A]].  [Fn] takes the instant of the call as a last
    argument, so that a context-aware function can react to the firing of
    its context.  [ch] is [None] for the nil pointer; the channel it points
    to is never shared, so it is stored in place. *)
Record Fetcher (T A : Type) := MkFetcher {
  Fn : Context -> A -> nat -> Behaviour T;
  Arg : A;
  result : Result T;
  ch : option chan
}.
Arguments MkFetcher {T A} Fn Arg result ch.
Arguments Fn {T A} f.
Arguments Arg {T A} f.
Arguments result {T A} f.
Arguments ch {T A} f.

(** ** Goroutines and the world *)

(** Where the goroutine spawned by [Run] stands: not yet scheduled, inside
    the call of [Fn] entered at [t0] (with what that call does), or gone. *)
Inductive Status (T : Type) :=
| Spawned
| Running (t0 : nat) (b : Behaviour T)
| Exited.
Arguments Spawned {T}.
Arguments Running {T} t0 b.
Arguments Exited {T}.

(** The closure of [go func() { ... }()] captures the handle [f] (a
    pointer, here an index of the heap) and [ctx]. *)
Record Goroutine (T : Type) := MkGoroutine {
  g_handle : nat;
  g_ctx : Context;
  g_status : Status T
}.
Arguments MkGoroutine {T} g_handle g_ctx g_status.
Arguments g_handle {T} g.
Arguments g_ctx {T} g.
Arguments g_status {T} g.

(** The observable events, in the order in which they happen: the [go]
    statement of [Run] for handle [l], the entry into [f.Fn(ctx, f.Arg)],
    a line written by [log.Printf], the entry into a panic handler with its
    two arguments, and the closing of the channel of handle [l]. *)
Inductive Event :=
| EvGo (l : nat)
| EvCall (l : nat)
| EvLog (line : string)
| EvHandler (name : string) (ctx : Context) (r : any)
| EvClose (l : nat).

Record World (T A : Type) := MkWorld {
  heap : list (Fetcher T A);
  threads : list (Goroutine T);
  globalPanicHandlers : list Handler;
  trace : list Event;
  now : nat;
  crashed : option any
}.
Arguments MkWorld {T A} heap threads globalPanicHandlers trace now crashed.
Arguments heap {T A} w.
Arguments threads {T A} w.
Arguments globalPanicHandlers {T A} w.
Arguments trace {T A} w.
Arguments now {T A} w.
Arguments crashed {T A} w.

(** What a call of [Await] does. *)
Inductive AwaitResult (T : Type) :=
| AwaitPanics (msg : string)
| AwaitBlocks
| AwaitReturns (val : T) (err : error).
Arguments AwaitPanics {T} msg.
Arguments AwaitBlocks {T}.
Arguments AwaitReturns {T} val err.

(** What the machine can do next. *)
Inductive Action (T A : Type) :=
| AAsync (fn : Context -> A -> nat -> Behaviour T) (arg : A)
| ARun (l : nat) (ctx : Context)
| AStart (g : nat)
| AFinish (g : nat)
| ASetPanicHandlers (handlers : list Handler)
| ATick.
Arguments AAsync {T A} fn arg.
Arguments ARun {T A} l ctx.
Arguments AStart {T A} g.
Arguments AFinish {T A} g.
Arguments ASetPanicHandlers {T A} handlers.
Arguments ATick {T A}.

(** ** The operations of fetcher.go *)

Definition newline : string := String (Ascii.ascii_of_nat 10) EmptyString.

(** [string(debug.Stack())] in goroutine [g]: the text of the stack is
    outside the program; only its first line is kept. *)
Definition debug_Stack (g : nat) : string :=
  "goroutine " +:+ pretty g +:+ " [running]:".

(** The line of [log.Printf("[ERROR] Panic recovered - %+v\n%s", r, stack)]. *)
Definition log_line (r : any) (stack : string) : string :=
  "[ERROR] Panic recovered - " +:+ fmt_v r +:+ newline +:+ stack.

(** [for _, fn := range handlers { fn(ctx, r) }]: the events of the calls
    and the payload of the panic that ended the loop, if one did. *)
Fixpoint range_handlers (ctx : Context) (r : any) (handlers : list Handler)
  : list Event * option any :=
  match handlers with
  | [] => ([], None)
  | fn :: rest =>
      match h_call fn ctx r with
      | HReturns =>
          let '(evs, p) := range_handlers ctx r rest in
          (EvHandler (h_name fn) ctx r :: evs, p)
      | HPanics p => ([EvHandler (h_name fn) ctx r], Some p)
      end
  end.

(** [handlePanicErr(ctx, r)], run by goroutine [g] while the registered
    handlers are [handlers]. *)
Definition handlePanicErr (g : nat) (ctx : Context) (r : any)
    (handlers : list Handler) : list Event * option any :=
  let '(evs, p) := range_handlers ctx r handlers in
  (EvLog (log_line r (debug_Stack g)) :: evs, p).

(** The second look at the context, after [f.Fn] has returned [err], read
    at instant [t]:
    [if ctx.Err() != nil && err == nil { err = ctx.Err() }]. *)
Definition merge_err (ctx : Context) (t : nat) (err : error) : error :=
  match ctx_Err ctx t, err with
  | Some _, None => ctx_Err ctx t
  | _, _ => err
  end.

Section Fetcher.
Context {T A : Type} `{Zero T}.

Implicit Types (w : World T A) (f : Fetcher T A) (l g : nat).

(** [&Fetcher[T, A]{Fn: fn, Arg: arg}]: the other fields are zero. *)
Definition new_Fetcher (fn : Context -> A -> nat -> Behaviour T) (arg : A)
  : Fetcher T A :=
  MkFetcher fn arg (MkResult zero None) None.

(** [Async(fn, arg)] allocates the handle and returns its address. *)
Definition Async (fn : Context -> A -> nat -> Behaviour T) (arg : A) w
  : World T A * nat :=
  (MkWorld (heap w ++ [new_Fetcher fn arg]) (threads w)
     (globalPanicHandlers w) (trace w) (now w) (crashed w),
   length (heap w)).

Definition set_heap (h : list (Fetcher T A)) w : World T A :=
  MkWorld h (threads w) (globalPanicHandlers w) (trace w) (now w) (crashed w).

Definition emit (evs : list Event) w : World T A :=
  MkWorld (heap w) (threads w) (globalPanicHandlers w) (trace w ++ evs)
    (now w) (crashed w).

(** An unrecovered panic ends the process. *)
Definition crash (r : any) w : World T A :=
  MkWorld (heap w) (threads w) (globalPanicHandlers w) (trace w) (now w)
    (Some r).

Definition set_status g (st : Status T) w : World T A :=
  match threads w !! g with
  | Some thr =>
      MkWorld (heap w)
        (<[g := MkGoroutine (g_handle thr) (g_ctx thr) st]> (threads w))
        (globalPanicHandlers w) (trace w) (now w) (crashed w)
  | None => w
  end.

(** [f.result = res] *)
Definition store_result l (res : Result T) w : World T A :=
  match heap w !! l with
  | Some f => set_heap (<[l := MkFetcher (Fn f) (Arg f) res (ch f)]> (heap w)) w
  | None => w
  end.

(** [f.result.Err = e] *)
Definition store_Err l (e : error) w : World T A :=
  match heap w !! l with
  | Some f =>
      set_heap (<[l := MkFetcher (Fn f) (Arg f)
                         (MkResult (Value (result f)) e) (ch f)]> (heap w)) w
  | None => w
  end.

(** [close( *f.ch )]: closing a channel that is closed already, or
    following a nil pointer, panics. *)
Definition close_ch l w : World T A :=
  match heap w !! l with
  | Some f =>
      match ch f with
      | Some Open =>
          emit [EvClose l]
            (set_heap (<[l := MkFetcher (Fn f) (Arg f) (result f) (Some Closed)]>
                         (heap w)) w)
      | Some Closed => crash (AnyString "close of closed channel") w
      | None =>
          crash (AnyString "invalid memory address or nil pointer dereference") w
      end
  | None => w
  end.

(** The goroutine returns, unless the process is gone. *)
Definition exit_goroutine g w : World T A :=
  match crashed w with
  | Some _ => w
  | None => set_status g Exited w
  end.

(** The deferred function of the goroutine, where [r] is what
    [recover()] returns: nil after a return, the payload after a panic.
    A handler that panics ends the deferred function there, and with it
    the process. *)
Definition deferred g l (ctx : Context) (r : option any) w : World T A :=
  match r with
  | Some p =>
      let '(evs, hp) := handlePanicErr g ctx p (globalPanicHandlers w) in
      let w1 := emit evs w in
      match hp with
      | Some p' => crash p' w1
      | None =>
          exit_goroutine g
            (close_ch l
               (store_Err l
                  (Some (Errorf "[Fetcher.Async]: panic recovered: " p)) w1))
      end
  | None => exit_goroutine g (close_ch l w)
  end.

(** [Run(ctx)] on the handle at address [l]: it returns at once if the
    handle has its channel; otherwise it makes the channel and spawns the
    goroutine. *)
Definition Run l (ctx : Context) w : World T A * nat :=
  match heap w !! l with
  | Some f =>
      match ch f with
      | Some _ => (w, l)
      | None =>
          (MkWorld
             (<[l := MkFetcher (Fn f) (Arg f) (result f) (ToPtr make_chan)]>
                (heap w))
             (threads w ++ [MkGoroutine l ctx Spawned])
             (globalPanicHandlers w) (trace w ++ [EvGo l]) (now w) (crashed w),
           l)
      end
  | None => (w, l)
  end.

(** The goroutine of [Run], from its first instruction to the call of
    [f.Fn]: the [select] on [ctx.Done()]. *)
Definition goroutine_start g w : World T A :=
  match threads w !! g with
  | Some thr =>
      match g_status thr with
      | Spawned =>
          let l := g_handle thr in
          let ctx := g_ctx thr in
          match heap w !! l with
          | Some f =>
              if ctx_Done ctx (now w) then
                deferred g l ctx None
                  (store_result l (MkResult zero (ctx_Err ctx (now w))) w)
              else
                set_status g (Running (now w) (Fn f ctx (Arg f) (now w)))
                  (emit [EvCall l] w)
          | None => w
          end
      | _ => w
      end
  | None => w
  end.

(** The goroutine of [Run], from the end of the call of [f.Fn] to its
    last instruction.  Nothing happens before the call has lasted its
    time. *)
Definition goroutine_finish g w : World T A :=
  match threads w !! g with
  | Some thr =>
      match g_status thr with
      | Running t0 b =>
          let l := g_handle thr in
          let ctx := g_ctx thr in
          match b with
          | Returns d val err =>
              if t0 + d <=? now w then
                deferred g l ctx None
                  (store_result l (MkResult val (merge_err ctx (now w) err)) w)
              else w
          | Panics d r =>
              if t0 + d <=? now w then deferred g l ctx (Some r) w else w
          | Hangs => w
          end
      | _ => w
      end
  | None => w
  end.

(** [SetPanicHandlers(handlers...)] *)
Definition SetPanicHandlers (handlers : list Handler) w : World T A :=
  MkWorld (heap w) (threads w) handlers (trace w) (now w) (crashed w).

Definition tick w : World T A :=
  MkWorld (heap w) (threads w) (globalPanicHandlers w) (trace w) (S (now w))
    (crashed w).

(** [Await()] on the handle at address [l], called in world [w] by a
    goroutine of a live process: it panics on a handle that has no
    channel, waits as long as the channel is open, and returns the stored
    pair once it is closed. *)
Definition Await l w : AwaitResult T :=
  match heap w !! l with
  | Some f =>
      match ch f with
      | None => AwaitPanics "fetcher not started, call Run() first"
      | Some Open => AwaitBlocks
      | Some Closed => AwaitReturns (Value (result f)) (Err (result f))
      end
  | None => AwaitPanics "invalid memory address or nil pointer dereference"
  end.

(** One step of the machine.  A process that has crashed does nothing. *)
Definition step w (a : Action T A) : World T A :=
  match crashed w with
  | Some _ => w
  | None =>
      match a with
      | AAsync fn arg => fst (Async fn arg w)
      | ARun l ctx => fst (Run l ctx w)
      | AStart g => goroutine_start g w
      | AFinish g => goroutine_finish g w
      | ASetPanicHandlers handlers => SetPanicHandlers handlers w
      | ATick => tick w
      end
  end.

Definition exec w (acts : list (Action T A)) : World T A :=
  fold_left step acts w.

(** The process at its start: nothing allocated, no handler registered. *)
Definition init_world : World T A := MkWorld [] [] [] [] 0 None.

End Fetcher.

(** The state of the channel of a handle whose goroutine has status [st]. *)
Definition chan_of {T} (st : Status T) : chan :=
  match st with
  | Exited => Closed
  | _ => Open
  end.


(** ** Notions used to state the properties *)

Section Notions.
Context {T A : Type} `{Zero T}.

Implicit Types (w : World T A) (f : Fetcher T A) (l g : nat)
  (thr : Goroutine T).

(** The world after the goroutine [g] of handle [l] has stored [res],
    emitted [evs], closed the channel and returned. *)
Definition completed_world g l (ctx : Context) f (res : Result T)
    (evs : list Event) w : World T A :=
  MkWorld (<[l := MkFetcher (Fn f) (Arg f) res (Some Closed)]> (heap w))
    (<[g := MkGoroutine l ctx Exited]> (threads w))
    (globalPanicHandlers w) (trace w ++ evs ++ [EvClose l]) (now w) None.

(** What one section of goroutine [g] (from its start to the call of
    [Fn], or from the end of that call to its end) can make of the world:
    nothing, when it is not the turn of that section; the entry into
    [Fn]; the completion of the handle; or the end of the process, in a
    handler that panics. *)
Inductive section_outcome w g : World T A → Prop :=
| outcome_idle : section_outcome w g w
| outcome_call thr f :
    threads w !! g = Some thr → g_status thr = Spawned →
    heap w !! g_handle thr = Some f →
    section_outcome w g
      (MkWorld (heap w)
         (<[g := MkGoroutine (g_handle thr) (g_ctx thr)
                   (Running (now w) (Fn f (g_ctx thr) (Arg f) (now w)))]>
            (threads w))
         (globalPanicHandlers w) (trace w ++ [EvCall (g_handle thr)]) (now w)
         (crashed w))
| outcome_completed thr f res evs :
    threads w !! g = Some thr → g_status thr ≠ Exited →
    heap w !! g_handle thr = Some f →
    (∀ k, EvCall k ∉ evs) →
    section_outcome w g
      (completed_world g (g_handle thr) (g_ctx thr) f res evs w)
| outcome_crashed evs p :
    (∀ k, EvCall k ∉ evs) →
    section_outcome w g (crash p (emit evs w)).

(** The handlers that return. *)
Definition returns_normally (ctx : Context) (r : any) (fn : Handler) : Prop :=
  h_call fn ctx r = HReturns.

(** The result that a goroutine stores when [Fn] has returned. *)
Definition returned_result (ctx : Context) (t : nat) (val : T) (err : error)
  : Result T :=
  MkResult val (merge_err ctx t err).

(** The result that the deferred function leaves when [Fn] has panicked
    with [r]. *)
Definition recovered_result f (r : any) : Result T :=
  MkResult (Value (result f))
    (Some (Errorf "[Fetcher.Async]: panic recovered: " r)).

(** No goroutine is at work for the handle at [l]. *)
Definition quiet l w : Prop :=
  ∀ g thr, threads w !! g = Some thr → g_handle thr = l →
           g_status thr = Exited.

Definition is_Run_of l (a : Action T A) : Prop :=
  match a with
  | ARun l' _ => l' = l
  | _ => False
  end.

(** The handles of the goroutines spawned so far, in spawning order. *)
Definition handles w : list nat := g_handle <$> threads w.

(** The number of goroutines ever spawned for the handle at [l]. *)
Definition spawned l w : nat := length (filter (l =.) (handles w)).

(** Well-formed worlds: what every world reached from [init_world]
    satisfies.  A handle has at most one goroutine, which exists as soon as
    the handle has a channel; the channel is open as long as that goroutine
    has not exited; the result of a handle whose channel is not closed is
    the zero result; [Fn] has only been entered by goroutines that passed
    the [select]; and what a running goroutine is recorded to do is what
    the [Fn] of its handle does on the captured context and on [Arg]. *)
Record wf w : Prop := MkWf {
  wf_unique : ∀ g g' thr thr',
    threads w !! g = Some thr → threads w !! g' = Some thr' →
    g_handle thr = g_handle thr' → g = g';
  wf_threads : ∀ g thr,
    threads w !! g = Some thr →
    ∃ f, heap w !! g_handle thr = Some f ∧ ch f = Some (chan_of (g_status thr));
  wf_started : ∀ l f,
    heap w !! l = Some f → ch f ≠ None →
    ∃ g thr, threads w !! g = Some thr ∧ g_handle thr = l;
  wf_zero : ∀ l f,
    heap w !! l = Some f → ch f ≠ Some Closed → result f = MkResult zero None;
  wf_calls : ∀ l,
    EvCall l ∈ trace w →
    ∃ g thr, threads w !! g = Some thr ∧ g_handle thr = l ∧
             g_status thr ≠ Spawned;
  wf_running : ∀ g thr t0 b,
    threads w !! g = Some thr → g_status thr = Running t0 b →
    ∃ f, heap w !! g_handle thr = Some f ∧ b = Fn f (g_ctx thr) (Arg f) t0
}.

End Notions.

(** ** The functions of fetcher_test.go

    One tick of the clock stands for a millisecond. *)

Module Tests.

(** [fetchUser]: sleeps 100ms, rejects ids that are not positive. *)
Definition fetchUser (ctx : Context) (id : Z) (t : nat) : Behaviour string :=
  if (id <=? 0)%Z then Returns 100 "" (Some (MkError "invalid user ID"))
  else Returns 100 ("user-" +:+ pretty id) None.

(** [panicFn] of [TestFetcher_Panic]. *)
Definition panicFn (ctx : Context) (a : Z) (t : nat) : Behaviour string :=
  Panics 0 (AnyString "boom").

(** The handler of [TestFetcher_PanicHandlerCalled] notes its argument and
    returns. *)
Definition noteHandler : Handler :=
  MkHandler "note" (λ _ _, HReturns).

(** A second handler that returns. *)
Definition metricsHandler : Handler :=
  MkHandler "metrics" (λ _ _, HReturns).

(** A handler that panics in turn. *)
Definition failingHandler : Handler :=
  MkHandler "failing" (λ _ _, HPanics (AnyString "handler failed")).

(** A function that returns what it has read so far together with the
    error that stopped it. *)
Definition readPartial (ctx : Context) (a : Z) (t : nat) : Behaviour string :=
  Returns 0 "partial" (Some (MkError "unexpected EOF")).

(** A function that panics after 10ms. *)
Definition panicLate (ctx : Context) (a : Z) (t : nat) : Behaviour string :=
  Panics 10 (AnyString "boom").

(** A context cancelled from the start, and one whose deadline is at 5ms. *)
Definition cancelledCtx : Context := MkContext (Some (0, Canceled)).
Definition deadlineCtx : Context := MkContext (Some (5, DeadlineExceeded)).

Definition world0 : World string Z := init_world.

End Tests.


(** ** The registry as the machine sees it

    Concurrent access to [globalPanicHandlers] is below the level of the
    world above, where [SetPanicHandlers] and the recovery are single
    steps.  A slice variable is three machine words (pointer to the
    array, length, capacity).  The Go memory model lets an implementation
    treat an access to a value larger than a word as separate accesses to
    its words, in an order it does not specify; here the words are taken
    in the order pointer, length, capacity.  [handlersMu] is a
    [sync.RWMutex]. *)

Module DataRace.

Record SliceHeader := MkSlice {
  data : nat;
  len : nat;
  cap : nat
}.

Record RWMutex := MkRWMutex {
  writer : bool;
  readers : nat
}.

Inductive Instr :=
| ILock | IUnlock | IRLock | IRUnlock
| IStoreData (p : nat) | IStoreLen (n : nat) | IStoreCap (n : nat)
| ILoadData | ILoadLen | ILoadCap
| ILog.

(** [SetPanicHandlers(handlers...)]:
    [handlersMu.Lock(); defer handlersMu.Unlock();
     globalPanicHandlers = handlers]. *)
Definition SetPanicHandlers (handlers : SliceHeader) : list Instr :=
  [ILock;
   IStoreData (data handlers); IStoreLen (len handlers);
   IStoreCap (cap handlers);
   IUnlock].

(** [handlePanicErr(ctx, r)] up to the first iteration of its loop:
    [log.Printf(...)], then [range globalPanicHandlers] evaluates the
    variable once, into a copy the loop iterates over.  The source takes
    no lock. *)
Definition handlePanicErr : list Instr :=
  [ILog; ILoadData; ILoadLen; ILoadCap].

(** Follows the words of the specification, not the source: a dispatch
    that takes its snapshot of the list under the read lock. *)
Definition Dispatch_per_spec : list Instr :=
  [ILog; IRLock; ILoadData; ILoadLen; ILoadCap; IRUnlock].

(** A goroutine: the instructions left to run, and its copy of the
    slice. *)
Record Thread := MkThread {
  code : list Instr;
  snapshot : SliceHeader
}.

Record Machine := MkMachine {
  globalPanicHandlers : SliceHeader;
  handlersMu : RWMutex;
  setter : Thread;
  dispatcher : Thread
}.

Inductive Tid := Setter | Dispatcher.

(** One instruction on the shared variable [h], the mutex [mu] and the
    copy [s] of the goroutine; [None] when the goroutine has to wait. *)
Definition run_instr (i : Instr) (h : SliceHeader) (mu : RWMutex)
    (s : SliceHeader) : option (SliceHeader * RWMutex * SliceHeader) :=
  match i with
  | ILock =>
      if writer mu || (0 <? readers mu) then None
      else Some (h, MkRWMutex true (readers mu), s)
  | IUnlock => Some (h, MkRWMutex false (readers mu), s)
  | IRLock =>
      if writer mu then None
      else Some (h, MkRWMutex (writer mu) (S (readers mu)), s)
  | IRUnlock => Some (h, MkRWMutex (writer mu) (pred (readers mu)), s)
  | IStoreData p => Some (MkSlice p (len h) (cap h), mu, s)
  | IStoreLen n => Some (MkSlice (data h) n (cap h), mu, s)
  | IStoreCap n => Some (MkSlice (data h) (len h) n, mu, s)
  | ILoadData => Some (h, mu, MkSlice (data h) (len s) (cap s))
  | ILoadLen => Some (h, mu, MkSlice (data s) (len h) (cap s))
  | ILoadCap => Some (h, mu, MkSlice (data s) (len s) (cap h))
  | ILog => Some (h, mu, s)
  end.

Definition run_thread (t : Thread) (m : Machine)
  : option (SliceHeader * RWMutex * Thread) :=
  match code t with
  | [] => None
  | i :: rest =>
      match run_instr i (globalPanicHandlers m) (handlersMu m) (snapshot t) with
      | Some (h, mu, s) => Some (h, mu, MkThread rest s)
      | None => None
      end
  end.

(** The scheduler lets goroutine [tid] run one instruction; nothing
    happens if it has finished or has to wait. *)
Definition step (m : Machine) (tid : Tid) : Machine :=
  match tid with
  | Setter =>
      match run_thread (setter m) m with
      | Some (h, mu, t) => MkMachine h mu t (dispatcher m)
      | None => m
      end
  | Dispatcher =>
      match run_thread (dispatcher m) m with
      | Some (h, mu, t) => MkMachine h mu (setter m) t
      | None => m
      end
  end.

Definition run (m : Machine) (schedule : list Tid) : Machine :=
  fold_left step schedule m.

(** Two handlers are registered, in an array of two at address 1; a
    goroutine replaces them by one handler, in an array of one at address
    2, while another goroutine recovers from a panic. *)
Definition registered : SliceHeader := MkSlice 1 2 2.
Definition replacement : SliceHeader := MkSlice 2 1 1.

Definition start (dispatch : list Instr) : Machine :=
  MkMachine registered (MkRWMutex false 0)
    (MkThread (SetPanicHandlers replacement) (MkSlice 0 0 0))
    (MkThread dispatch (MkSlice 0 0 0)).

Global Instance SliceHeader_eq_dec : EqDecision SliceHeader.
Proof. solve_decision. Defined.
Global Instance RWMutex_eq_dec : EqDecision RWMutex.
Proof. solve_decision. Defined.
Global Instance Instr_eq_dec : EqDecision Instr.
Proof. solve_decision. Defined.
Global Instance Thread_eq_dec : EqDecision Thread.
Proof. solve_decision. Defined.
Global Instance Machine_eq_dec : EqDecision Machine.
Proof. solve_decision. Defined.

(** The machines reached from [ms] in at most [n] further steps. *)
Fixpoint closure (n : nat) (ms : list Machine) : list Machine :=
  match n with
  | 0 => ms
  | S n' =>
      closure n'
        (remove_dups (ms ++ ((λ m, step m Setter) <$> ms)
                         ++ ((λ m, step m Dispatcher) <$> ms)))
  end.

(** A finished dispatcher holds one of the two slices that were ever
    assigned to the variable. *)
Definition consistent (m : Machine) : bool :=
  match code (dispatcher m) with
  | [] =>
      bool_decide (snapshot (dispatcher m) = registered)
      || bool_decide (snapshot (dispatcher m) = replacement)
  | _ => true
  end.

(** Everything the two goroutines can reach when the dispatch follows the
    specification. *)
Definition reach_per_spec : list Machine :=
  Eval vm_compute in closure 12 [start Dispatch_per_spec].

Definition closed_under_step (ms : list Machine) : bool :=
  forallb (λ m, bool_decide (step m Setter ∈ ms)
                && bool_decide (step m Dispatcher ∈ ms)) ms.

End DataRace.

(** ** The helper of fetcher_test.go *)

(** [s[1:]] *)
Definition slice_from_1 (s : string) : string :=
  match s with
  | String _ rest => rest
  | EmptyString => EmptyString
  end.

(** [s[:len(s)-1]] *)
Fixpoint slice_to_last (s : string) : string :=
  match s with
  | EmptyString => EmptyString
  | String c EmptyString => EmptyString
  | String c rest => String c (slice_to_last rest)
  end.

Lemma length_slice_from_1 s :
  s ≠ EmptyString → S (String.length (slice_from_1 s)) = String.length s.
Proof. by destruct s. Qed.

Lemma length_slice_to_last s :
  s ≠ EmptyString → S (String.length (slice_to_last s)) = String.length s.
Proof.
  induction s as [|c rest IH]; [done|]. intros _.
  destruct rest; [done|]. simpl in *. by rewrite IH.
Qed.

(** [contains(s, substr)]:
    [len(substr) == 0 || (len(s) >= len(substr) && (s == substr ||
     len(s) > len(substr) &&
     (contains(s[1:], substr) || contains(s[:len(s)-1], substr))))].
    The two slices are only taken of a string that is longer than
    [substr], hence not empty. *)
Equations? contains (s substr : string) : bool by wf (String.length s) lt :=
  contains s substr :=
    (String.length substr =? 0) ||
    ((String.length substr <=? String.length s) &&
     (String.eqb s substr ||
      match lt_dec (String.length substr) (String.length s) with
      | left _ =>
          contains (slice_from_1 s) substr || contains (slice_to_last s) substr
      | right _ => false
      end)).
Proof.
  - assert (s ≠ EmptyString) as Hs by (destruct s; [simpl in *; lia|done]).
    pose proof (length_slice_from_1 s Hs). lia.
  - assert (s ≠ EmptyString) as Hs by (destruct s; [simpl in *; lia|done]).
    pose proof (length_slice_to_last s Hs). lia.
Qed.

(** ** Further notions *)

(** A function that never comes back, whatever its context does. *)
Definition neverReturns (ctx : Context) (a : Z) (t : nat) : Behaviour string :=
  Hangs.

(** A handler that returns whatever it is called with. *)
Definition always_returns (fn : Handler) : Prop :=
  ∀ ctx r, h_call fn ctx r = HReturns.

(** An action that registers no handler that could panic. *)
Definition registers_returning {T A : Type} (a : Action T A) : Prop :=
  match a with
  | ASetPanicHandlers handlers => Forall always_returns handlers
  | _ => True
  end.

(** The handlers of the last [SetPanicHandlers] among [acts], none if
    there is no such call. *)
Definition last_set {T A : Type} (acts : list (Action T A)) : list Handler :=
  fold_left (λ hs a, match a with
                     | ASetPanicHandlers handlers => handlers
                     | _ => hs
                     end) acts [].

(** The sections of the goroutine [g]. *)
Definition is_section_of {T A : Type} (g : nat) (a : Action T A) : Prop :=
  match a with
  | AStart g' | AFinish g' => g' = g
  | _ => False
  end.

(** ** Two calls of [SetPanicHandlers] at once *)

Module Setters.
Import DataRace.

(** Two goroutines call [SetPanicHandlers], with [h1] and with [h2],
    while the variable holds [h0]. *)
Definition two_setters (h0 h1 h2 : SliceHeader) : Machine :=
  MkMachine h0 (MkRWMutex false 0)
    (MkThread (SetPanicHandlers h1) (MkSlice 0 0 0))
    (MkThread (SetPanicHandlers h2) (MkSlice 0 0 0)).

(** The variable after the first [k] instructions of
    [SetPanicHandlers h], entered when it held [base]. *)
Definition written (h base : SliceHeader) (k : nat) : SliceHeader :=
  match k with
  | 0 | 1 => base
  | 2 => MkSlice (data h) (len base) (cap base)
  | 3 => MkSlice (data h) (len h) (cap base)
  | _ => MkSlice (data h) (len h) (cap h)
  end.

(** Where the two calls can stand: both outside the lock ([k1], [k2]
    instructions done, none or all five), the variable holding a whole
    slice; or one of them inside, the other outside. *)
Inductive setters_inv (h0 h1 h2 : SliceHeader) (m : Machine) : Prop :=
| inv_outside k1 k2 :
    (k1 = 0 ∨ k1 = 5) → (k2 = 0 ∨ k2 = 5) →
    code (setter m) = drop k1 (SetPanicHandlers h1) →
    code (dispatcher m) = drop k2 (SetPanicHandlers h2) →
    handlersMu m = MkRWMutex false 0 →
    (k1 = 0 ∧ k2 = 0 ∧ globalPanicHandlers m = h0) ∨
    (k1 = 5 ∧ globalPanicHandlers m = h1) ∨
    (k2 = 5 ∧ globalPanicHandlers m = h2) →
    setters_inv h0 h1 h2 m
| inv_first_inside k1 k2 base :
    1 ≤ k1 ≤ 4 → (k2 = 0 ∨ k2 = 5) →
    code (setter m) = drop k1 (SetPanicHandlers h1) →
    code (dispatcher m) = drop k2 (SetPanicHandlers h2) →
    handlersMu m = MkRWMutex true 0 →
    globalPanicHandlers m = written h1 base k1 →
    setters_inv h0 h1 h2 m
| inv_second_inside k1 k2 base :
    (k1 = 0 ∨ k1 = 5) → 1 ≤ k2 ≤ 4 →
    code (setter m) = drop k1 (SetPanicHandlers h1) →
    code (dispatcher m) = drop k2 (SetPanicHandlers h2) →
    handlersMu m = MkRWMutex true 0 →
    globalPanicHandlers m = written h2 base k2 →
    setters_inv h0 h1 h2 m.

End Setters.

Section Invariant.
Context {T A : Type} `{Zero T}.

Implicit Types (w : World T A) (f : Fetcher T A) (l g : nat)
  (thr : Goroutine T).

Lemma wf_init : wf (init_world (T:=T) (A:=A)).
Proof.
  split; simpl.
  - intros g g' thr thr' Hg. by rewrite lookup_nil in Hg.
  - intros g thr Hg. by rewrite lookup_nil in Hg.
  - intros l f Hl. by rewrite lookup_nil in Hl.
  - intros l f Hl. by rewrite lookup_nil in Hl.
  - intros l Hin. by apply elem_of_nil in Hin.
  - intros g thr t0 b Hg. by rewrite lookup_nil in Hg.
Qed.

(** A thread and the handle it works for. *)
Lemma wf_thread_open w g thr :
  wf w → threads w !! g = Some thr → g_status thr ≠ Exited →
  ∃ f, heap w !! g_handle thr = Some f ∧ ch f = Some Open ∧
       result f = MkResult zero None.
Proof.
  intros Hwf Hg Hst.
  destruct (wf_threads w Hwf g thr Hg) as (f & Hf & Hc).
  exists f. split; [done|].
  assert (ch f = Some Open) as Ho.
  { rewrite Hc. by destruct (g_status thr). }
  split; [done|].
  apply (wf_zero w Hwf _ _ Hf). by rewrite Ho.
Qed.

Lemma wf_closed_exited w g thr f :
  wf w → threads w !! g = Some thr → heap w !! g_handle thr = Some f →
  ch f = Some Closed → g_status thr = Exited.
Proof.
  intros Hwf Hg Hf Hc.
  destruct (wf_threads w Hwf g thr Hg) as (f' & Hf' & Hc').
  rewrite Hf in Hf'. injection Hf' as <-.
  rewrite Hc in Hc'. by destruct (g_status thr).
Qed.

Lemma wf_created_no_thread w l f g thr :
  wf w → heap w !! l = Some f → ch f = None →
  threads w !! g = Some thr → g_handle thr ≠ l.
Proof.
  intros Hwf Hf Hc Hg Heq.
  destruct (wf_threads w Hwf g thr Hg) as (f' & Hf' & Hc').
  rewrite Heq, Hf in Hf'. injection Hf' as <-. by rewrite Hc in Hc'.
Qed.

End Invariant.

(** * Proofs

    ** What the steps of a goroutine amount to *)

Section Steps.
Context {T A : Type} `{Zero T}.

Implicit Types (w : World T A) (f : Fetcher T A) (l g : nat)
  (thr : Goroutine T).

Lemma close_exit g l ctx f thr res evs w :
  heap w !! l = Some f → ch f = Some Open →
  threads w !! g = Some thr → g_handle thr = l → g_ctx thr = ctx →
  crashed w = None →
  exit_goroutine g
    (close_ch l (emit evs (store_result l res w)))
  = completed_world g l ctx f res evs w.
Proof.
  intros Hf Hc Hg Hl Hx Hcr.
  assert (l < length (heap w)) as Hlt by (by eapply lookup_lt_Some).
  unfold store_result. rewrite Hf.
  unfold close_ch, emit, set_heap. simpl.
  rewrite list_lookup_insert_eq by done. simpl. rewrite Hc.
  unfold exit_goroutine, set_status. simpl. rewrite Hcr, Hg.
  unfold completed_world. rewrite list_insert_insert_eq, Hl, Hx.
  by rewrite <- app_assoc.
Qed.

Lemma emit_nil w : emit [] w = w.
Proof. destruct w. unfold emit. simpl. by rewrite app_nil_r. Qed.

Lemma range_handlers_ok ctx r handlers :
  Forall (returns_normally ctx r) handlers →
  range_handlers ctx r handlers
  = ((λ fn, EvHandler (h_name fn) ctx r) <$> handlers, None).
Proof.
  induction 1 as [|fn rest Hfn _ IH]; [done|].
  simpl. rewrite Hfn, IH. done.
Qed.

Lemma handlePanicErr_ok g ctx r handlers :
  Forall (returns_normally ctx r) handlers →
  handlePanicErr g ctx r handlers
  = (EvLog (log_line r (debug_Stack g))
       :: ((λ fn, EvHandler (h_name fn) ctx r) <$> handlers), None).
Proof.
  intros Hok. unfold handlePanicErr. by rewrite range_handlers_ok.
Qed.

Lemma range_handlers_no_call ctx r handlers l :
  EvCall l ∉ (range_handlers ctx r handlers).1.
Proof.
  induction handlers as [|fn rest IH]; simpl.
  - apply not_elem_of_nil.
  - destruct (h_call fn ctx r).
    + destruct (range_handlers ctx r rest) as [evs p]. simpl in *.
      intros Hin. apply elem_of_cons in Hin as [Heq|Hin]; [done|].
      by apply IH.
    + simpl. intros Hin. apply elem_of_cons in Hin as [Heq|Hin]; [done|].
      by apply elem_of_nil in Hin.
Qed.

Lemma handlePanicErr_no_call g ctx r handlers l :
  EvCall l ∉ (handlePanicErr g ctx r handlers).1.
Proof.
  unfold handlePanicErr.
  pose proof (range_handlers_no_call ctx r handlers l) as Hno.
  destruct (range_handlers ctx r handlers) as [evs p]. simpl in *.
  intros Hin. apply elem_of_cons in Hin as [Heq|Hin]; [done|]. by apply Hno.
Qed.

Lemma goroutine_start_cancelled w g thr f :
  threads w !! g = Some thr → g_status thr = Spawned →
  heap w !! g_handle thr = Some f → ch f = Some Open →
  crashed w = None →
  ctx_Done (g_ctx thr) (now w) = true →
  goroutine_start g w
  = completed_world g (g_handle thr) (g_ctx thr) f
      (MkResult zero (ctx_Err (g_ctx thr) (now w))) [] w.
Proof.
  intros Hg Hst Hf Hc Hcr Hdone.
  unfold goroutine_start. rewrite Hg, Hst, Hf, Hdone.
  unfold deferred.
  rewrite <- (emit_nil (store_result _ _ w)).
  by apply close_exit with thr.
Qed.

Lemma goroutine_start_call w g thr f :
  threads w !! g = Some thr → g_status thr = Spawned →
  heap w !! g_handle thr = Some f →
  ctx_Done (g_ctx thr) (now w) = false →
  goroutine_start g w
  = MkWorld (heap w)
      (<[g := MkGoroutine (g_handle thr) (g_ctx thr)
                (Running (now w) (Fn f (g_ctx thr) (Arg f) (now w)))]>
         (threads w))
      (globalPanicHandlers w) (trace w ++ [EvCall (g_handle thr)]) (now w)
      (crashed w).
Proof.
  intros Hg Hst Hf Hdone.
  unfold goroutine_start. rewrite Hg, Hst, Hf, Hdone.
  unfold set_status, emit. simpl. by rewrite Hg.
Qed.

Lemma goroutine_finish_returned w g thr f t0 d val err :
  threads w !! g = Some thr → g_status thr = Running t0 (Returns d val err) →
  heap w !! g_handle thr = Some f → ch f = Some Open →
  crashed w = None →
  t0 + d ≤ now w →
  goroutine_finish g w
  = completed_world g (g_handle thr) (g_ctx thr) f
      (returned_result (g_ctx thr) (now w) val err) [] w.
Proof.
  intros Hg Hst Hf Hc Hcr Hdue.
  unfold goroutine_finish. rewrite Hg, Hst.
  destruct (Nat.leb_spec (t0 + d) (now w)); [|lia].
  unfold deferred.
  rewrite <- (emit_nil (store_result _ _ w)).
  by apply close_exit with thr.
Qed.

Lemma store_Err_as_result l f e w :
  heap w !! l = Some f →
  store_Err l e w = store_result l (MkResult (Value (result f)) e) w.
Proof. intros Hf. unfold store_Err, store_result. by rewrite Hf. Qed.

Lemma emit_store_result evs l res w :
  store_result l res (emit evs w) = emit evs (store_result l res w).
Proof.
  unfold store_result, emit, set_heap. simpl. by destruct (heap w !! l).
Qed.

Lemma goroutine_finish_recovered w g thr f t0 d r :
  threads w !! g = Some thr → g_status thr = Running t0 (Panics d r) →
  heap w !! g_handle thr = Some f → ch f = Some Open →
  crashed w = None →
  t0 + d ≤ now w →
  (handlePanicErr g (g_ctx thr) r (globalPanicHandlers w)).2 = None →
  goroutine_finish g w
  = completed_world g (g_handle thr) (g_ctx thr) f (recovered_result f r)
      (handlePanicErr g (g_ctx thr) r (globalPanicHandlers w)).1 w.
Proof.
  intros Hg Hst Hf Hc Hcr Hdue Hok.
  unfold goroutine_finish. rewrite Hg, Hst.
  destruct (Nat.leb_spec (t0 + d) (now w)); [|lia].
  unfold deferred.
  destruct (handlePanicErr g (g_ctx thr) r (globalPanicHandlers w)) as [evs hp].
  simpl in *. subst hp.
  rewrite (store_Err_as_result _ f) by done.
  rewrite emit_store_result.
  by apply close_exit with thr.
Qed.

Lemma goroutine_finish_crashed w g thr t0 d r :
  threads w !! g = Some thr → g_status thr = Running t0 (Panics d r) →
  t0 + d ≤ now w →
  ∀ p, (handlePanicErr g (g_ctx thr) r (globalPanicHandlers w)).2 = Some p →
  goroutine_finish g w
  = crash p (emit (handlePanicErr g (g_ctx thr) r (globalPanicHandlers w)).1 w).
Proof.
  intros Hg Hst Hdue p Hp.
  unfold goroutine_finish. rewrite Hg, Hst.
  destruct (Nat.leb_spec (t0 + d) (now w)); [|lia].
  unfold deferred.
  destruct (handlePanicErr g (g_ctx thr) r (globalPanicHandlers w)) as [evs hp].
  simpl in *. by rewrite Hp.
Qed.

End Steps.

(** ** Every step keeps the world well formed *)

Section Preservation.
Context {T A : Type} `{Zero T}.

Implicit Types (w : World T A) (f : Fetcher T A) (l g : nat)
  (thr : Goroutine T).

Lemma wf_same_heap_threads w w' :
  wf w → heap w' = heap w → threads w' = threads w →
  (∀ l, EvCall l ∈ trace w' → EvCall l ∈ trace w) →
  wf w'.
Proof.
  intros [Hu Ht Hs Hz Hc Hr] Hh Hth Htr.
  split; rewrite ?Hh, ?Hth; auto.
Qed.

Lemma lookup_insert_thread (ths : list (Goroutine T)) g i x thr' :
  <[g := x]> ths !! i = Some thr' →
  (i = g ∧ thr' = x) ∨ (i ≠ g ∧ ths !! i = Some thr').
Proof.
  intros Hi. destruct (decide (i = g)) as [->|Hne].
  - left. split; [done|].
    assert (g < length ths) as Hlt.
    { apply lookup_lt_Some in Hi. by rewrite length_insert in Hi. }
    rewrite list_lookup_insert_eq in Hi by done. congruence.
  - right. split; [done|]. by rewrite list_lookup_insert_ne in Hi.
Qed.

Lemma wf_completed w g thr f res evs :
  wf w → threads w !! g = Some thr → heap w !! g_handle thr = Some f →
  (∀ l, EvCall l ∉ evs) →
  wf (completed_world g (g_handle thr) (g_ctx thr) f res evs w).
Proof.
  intros Hwf Hg Hf Hevs.
  assert (g < length (threads w)) as Hglt by (by eapply lookup_lt_Some).
  assert (g_handle thr < length (heap w)) as Hllt by (by eapply lookup_lt_Some).
  split; unfold completed_world; simpl.
  - intros i i' t1 t2 Hi Hi' Heq.
    apply lookup_insert_thread in Hi as [[-> ->]|[Hne Hi]];
      apply lookup_insert_thread in Hi' as [[-> ->]|[Hne' Hi']]; simpl in *.
    + done.
    + by apply (wf_unique w Hwf g i' thr t2).
    + by apply (wf_unique w Hwf i g t1 thr).
    + by apply (wf_unique w Hwf i i' t1 t2).
  - intros i t1 Hi.
    apply lookup_insert_thread in Hi as [[-> ->]|[Hne Hi]]; simpl.
    + rewrite list_lookup_insert_eq by done. by eexists.
    + assert (g_handle t1 ≠ g_handle thr) as Hl.
      { intros Heq. apply Hne. by apply (wf_unique w Hwf i g t1 thr). }
      rewrite list_lookup_insert_ne by done.
      by apply (wf_threads w Hwf i).
  - intros l f' Hl Hc.
    destruct (decide (l = g_handle thr)) as [->|Hne].
    + exists g, (MkGoroutine (g_handle thr) (g_ctx thr) Exited).
      by rewrite list_lookup_insert_eq.
    + rewrite list_lookup_insert_ne in Hl by done.
      destruct (wf_started w Hwf l f' Hl Hc) as (i & t1 & Hi & Heq).
      exists i, t1. split; [|done].
      rewrite list_lookup_insert_ne; [done|]. intros <-. congruence.
  - intros l f' Hl Hc.
    destruct (decide (l = g_handle thr)) as [->|Hne].
    + rewrite list_lookup_insert_eq in Hl by done.
      injection Hl as <-. by simpl in Hc.
    + rewrite list_lookup_insert_ne in Hl by done.
      by apply (wf_zero w Hwf l).
  - intros l Hin.
    rewrite !elem_of_app in Hin. destruct Hin as [Hin|[Hin|Hin]].
    + destruct (wf_calls w Hwf l Hin) as (i & t1 & Hi & Heq & Hst).
      destruct (decide (i = g)) as [->|Hne].
      * exists g, (MkGoroutine (g_handle thr) (g_ctx thr) Exited).
        rewrite list_lookup_insert_eq by done. simpl.
        split; [done|]. split; [congruence|done].
      * exists i, t1. by rewrite list_lookup_insert_ne.
    + by apply Hevs in Hin.
    + apply list_elem_of_singleton in Hin. done.
  - intros i t1 t0 b Hi Hst.
    apply lookup_insert_thread in Hi as [[-> ->]|[Hne Hi]]; [done|].
    assert (g_handle t1 ≠ g_handle thr) as Hl.
    { intros Heq. apply Hne. by apply (wf_unique w Hwf i g t1 thr). }
    rewrite list_lookup_insert_ne by done.
    by apply (wf_running w Hwf i).
Qed.

Lemma wf_call w g thr f :
  wf w → threads w !! g = Some thr → g_status thr = Spawned →
  heap w !! g_handle thr = Some f →
  wf (MkWorld (heap w)
        (<[g := MkGoroutine (g_handle thr) (g_ctx thr)
                  (Running (now w) (Fn f (g_ctx thr) (Arg f) (now w)))]>
           (threads w))
        (globalPanicHandlers w) (trace w ++ [EvCall (g_handle thr)]) (now w)
        (crashed w)).
Proof.
  intros Hwf Hg Hst Hf.
  assert (g < length (threads w)) as Hglt by (by eapply lookup_lt_Some).
  split; simpl.
  - intros i i' t1 t2 Hi Hi' Heq.
    apply lookup_insert_thread in Hi as [[-> ->]|[Hne Hi]];
      apply lookup_insert_thread in Hi' as [[-> ->]|[Hne' Hi']]; simpl in *.
    + done.
    + by apply (wf_unique w Hwf g i' thr t2).
    + by apply (wf_unique w Hwf i g t1 thr).
    + by apply (wf_unique w Hwf i i' t1 t2).
  - intros i t1 Hi.
    apply lookup_insert_thread in Hi as [[-> ->]|[Hne Hi]]; simpl.
    + destruct (wf_threads w Hwf g thr Hg) as (f' & Hf' & Hc).
      exists f'. split; [done|]. by rewrite Hst in Hc.
    + by apply (wf_threads w Hwf i).
  - intros l f' Hl Hc.
    destruct (wf_started w Hwf l f' Hl Hc) as (i & t1 & Hi & Heq).
    destruct (decide (i = g)) as [->|Hne].
    + eexists g, _. rewrite list_lookup_insert_eq by done.
      split; [done|]. simpl. congruence.
    + exists i, t1. by rewrite list_lookup_insert_ne.
  - apply (wf_zero w Hwf).
  - intros l Hin. rewrite elem_of_app in Hin. destruct Hin as [Hin|Hin].
    + destruct (wf_calls w Hwf l Hin) as (i & t1 & Hi & Heq & Hs).
      destruct (decide (i = g)) as [->|Hne].
      * eexists g, _. rewrite list_lookup_insert_eq by done.
        split; [done|]. simpl. split; [congruence|done].
      * exists i, t1. by rewrite list_lookup_insert_ne.
    + apply list_elem_of_singleton in Hin. injection Hin as ->.
      eexists g, _. by rewrite list_lookup_insert_eq.
  - intros i t1 t0 b Hi Hst'.
    apply lookup_insert_thread in Hi as [[-> ->]|[Hne Hi]]; simpl in *.
    + exists f. split; [done|]. congruence.
    + by apply (wf_running w Hwf i).
Qed.

Lemma wf_Async w fn arg : wf w → wf (Async fn arg w).1.
Proof.
  intros Hwf. split; simpl.
  - apply (wf_unique w Hwf).
  - intros g thr Hg.
    destruct (wf_threads w Hwf g thr Hg) as (f & Hf & Hc).
    exists f. split; [|done]. by apply lookup_app_l_Some.
  - intros l f Hl Hc.
    apply lookup_app_Some in Hl as [Hl|[_ Hl]].
    + by apply (wf_started w Hwf l f).
    + apply list_lookup_singleton_Some in Hl as [_ <-]. done.
  - intros l f Hl Hc.
    apply lookup_app_Some in Hl as [Hl|[_ Hl]].
    + by apply (wf_zero w Hwf l f).
    + apply list_lookup_singleton_Some in Hl as [_ <-]. done.
  - apply (wf_calls w Hwf).
  - intros g thr t0 b Hg Hst.
    destruct (wf_running w Hwf g thr t0 b Hg Hst) as (f & Hf & Hb).
    exists f. split; [|done]. by apply lookup_app_l_Some.
Qed.

Lemma Run_started w l ctx f :
  heap w !! l = Some f → ch f ≠ None → Run l ctx w = (w, l).
Proof.
  intros Hf Hc. unfold Run. rewrite Hf. by destruct (ch f).
Qed.

Lemma Run_created w l ctx f :
  heap w !! l = Some f → ch f = None →
  Run l ctx w
  = (MkWorld
       (<[l := MkFetcher (Fn f) (Arg f) (result f) (Some Open)]> (heap w))
       (threads w ++ [MkGoroutine l ctx Spawned])
       (globalPanicHandlers w) (trace w ++ [EvGo l]) (now w) (crashed w),
     l).
Proof. intros Hf Hc. unfold Run. by rewrite Hf, Hc. Qed.

Lemma wf_Run w l ctx : wf w → wf (Run l ctx w).1.
Proof.
  intros Hwf.
  destruct (heap w !! l) as [f|] eqn:Hf;
    [|by unfold Run; rewrite Hf].
  destruct (ch f) as [c|] eqn:Hc.
  { rewrite (Run_started w l ctx f); [done|done|by rewrite Hc]. }
  rewrite (Run_created w l ctx f) by done.
  assert (l < length (heap w)) as Hllt by (by eapply lookup_lt_Some).
  split; simpl.
  - intros i i' t1 t2 Hi Hi' Heq.
    apply lookup_app_Some in Hi as [Hi|[Hge Hi]];
      apply lookup_app_Some in Hi' as [Hi'|[Hge' Hi']].
    + by apply (wf_unique w Hwf i i' t1 t2).
    + apply list_lookup_singleton_Some in Hi' as [_ <-]. simpl in Heq.
      by destruct (wf_created_no_thread w l f i t1 Hwf Hf Hc Hi).
    + apply list_lookup_singleton_Some in Hi as [_ <-]. simpl in Heq.
      by destruct (wf_created_no_thread w l f i' t2 Hwf Hf Hc Hi').
    + apply list_lookup_singleton_Some in Hi as [Hi _].
      apply list_lookup_singleton_Some in Hi' as [Hi' _]. lia.
  - intros i t1 Hi.
    apply lookup_app_Some in Hi as [Hi|[Hge Hi]].
    + pose proof (wf_created_no_thread w l f i t1 Hwf Hf Hc Hi) as Hne.
      rewrite list_lookup_insert_ne by done.
      by apply (wf_threads w Hwf i).
    + apply list_lookup_singleton_Some in Hi as [_ <-]. simpl.
      rewrite list_lookup_insert_eq by done. by eexists.
  - intros l' f' Hl' Hc'.
    destruct (decide (l' = l)) as [->|Hne].
    + exists (length (threads w)), (MkGoroutine l ctx Spawned).
      split; [|done]. by apply list_lookup_middle.
    + rewrite list_lookup_insert_ne in Hl' by done.
      destruct (wf_started w Hwf l' f' Hl' Hc') as (i & t1 & Hi & Heq).
      exists i, t1. split; [|done]. by apply lookup_app_l_Some.
  - intros l' f' Hl' Hc'.
    destruct (decide (l' = l)) as [->|Hne].
    + rewrite list_lookup_insert_eq in Hl' by done. injection Hl' as <-.
      simpl. apply (wf_zero w Hwf l f Hf). by rewrite Hc.
    + rewrite list_lookup_insert_ne in Hl' by done.
      by apply (wf_zero w Hwf l').
  - intros l' Hin. rewrite elem_of_app in Hin. destruct Hin as [Hin|Hin].
    + destruct (wf_calls w Hwf l' Hin) as (i & t1 & Hi & Heq & Hs).
      exists i, t1. split; [|done]. by apply lookup_app_l_Some.
    + apply list_elem_of_singleton in Hin. done.
  - intros i t1 t0 b Hi Hst.
    apply lookup_app_Some in Hi as [Hi|[Hge Hi]].
    + pose proof (wf_created_no_thread w l f i t1 Hwf Hf Hc Hi) as Hne.
      rewrite list_lookup_insert_ne by done.
      by apply (wf_running w Hwf i).
    + apply list_lookup_singleton_Some in Hi as [_ <-]. done.
Qed.

Lemma goroutine_start_outcome w g :
  wf w → crashed w = None → section_outcome w g (goroutine_start g w).
Proof.
  intros Hwf Hcr.
  destruct (threads w !! g) as [thr|] eqn:Hg;
    [|unfold goroutine_start; rewrite Hg; constructor].
  destruct (g_status thr) as [|t0 b|] eqn:Hst;
    [|unfold goroutine_start; rewrite Hg, Hst; constructor..].
  destruct (wf_thread_open w g thr Hwf Hg) as (f & Hf & Hc & _);
    [by rewrite Hst|].
  destruct (ctx_Done (g_ctx thr) (now w)) eqn:Hdone.
  - rewrite (goroutine_start_cancelled w g thr f) by done.
    apply outcome_completed; try done; [by rewrite Hst|].
    intros k. apply not_elem_of_nil.
  - rewrite (goroutine_start_call w g thr f) by done.
    by apply outcome_call.
Qed.

Lemma goroutine_finish_outcome w g :
  wf w → crashed w = None → section_outcome w g (goroutine_finish g w).
Proof.
  intros Hwf Hcr.
  destruct (threads w !! g) as [thr|] eqn:Hg;
    [|unfold goroutine_finish; rewrite Hg; constructor].
  destruct (g_status thr) as [|t0 b|] eqn:Hst;
    [unfold goroutine_finish; rewrite Hg, Hst; constructor| |
     unfold goroutine_finish; rewrite Hg, Hst; constructor].
  destruct (wf_thread_open w g thr Hwf Hg) as (f & Hf & Hc & _);
    [by rewrite Hst|].
  assert (g_status thr ≠ Exited) as Hlive by (by rewrite Hst).
  destruct b as [d val err|d r|];
    [| |unfold goroutine_finish; rewrite Hg, Hst; constructor].
  - destruct (decide (t0 + d ≤ now w)) as [Hdue|Hearly].
    + rewrite (goroutine_finish_returned w g thr f t0 d val err) by done.
      apply outcome_completed; try done. intros k. apply not_elem_of_nil.
    + unfold goroutine_finish. rewrite Hg, Hst.
      destruct (Nat.leb_spec (t0 + d) (now w)); [lia|constructor].
  - destruct (decide (t0 + d ≤ now w)) as [Hdue|Hearly].
    + destruct (handlePanicErr g (g_ctx thr) r (globalPanicHandlers w)).2
        as [p|] eqn:Hp.
      * rewrite (goroutine_finish_crashed w g thr t0 d r Hg Hst Hdue p Hp).
        apply outcome_crashed. intros k. apply handlePanicErr_no_call.
      * rewrite (goroutine_finish_recovered w g thr f t0 d r) by done.
        apply outcome_completed; try done.
        intros k. apply handlePanicErr_no_call.
    + unfold goroutine_finish. rewrite Hg, Hst.
      destruct (Nat.leb_spec (t0 + d) (now w)); [lia|constructor].
Qed.

Lemma wf_section_outcome w g w' : wf w → section_outcome w g w' → wf w'.
Proof.
  intros Hwf Hout.
  destruct Hout as [|thr f Hg Hst Hf|thr f res evs Hg Hlive Hf Hevs|evs p Hevs].
  - done.
  - by apply wf_call.
  - by apply wf_completed.
  - apply (wf_same_heap_threads w); try done.
    simpl. intros l Hin. rewrite elem_of_app in Hin.
    destruct Hin as [Hin|Hin]; [done|]. by apply Hevs in Hin.
Qed.

Lemma wf_step w a : wf w → wf (step w a).
Proof.
  intros Hwf. unfold step.
  destruct (crashed w) eqn:Hcr; [done|].
  destruct a as [fn arg|l ctx|g|g|handlers|].
  - by apply wf_Async.
  - by apply wf_Run.
  - by apply (wf_section_outcome w g), goroutine_start_outcome.
  - by apply (wf_section_outcome w g), goroutine_finish_outcome.
  - by apply (wf_same_heap_threads w).
  - by apply (wf_same_heap_threads w).
Qed.

Lemma wf_exec w acts : wf w → wf (exec w acts).
Proof.
  revert w. induction acts as [|a acts IH]; intros w Hwf; [done|].
  simpl. apply IH. by apply wf_step.
Qed.

Lemma exec_app w acts acts' :
  exec w (acts ++ acts') = exec (exec w acts) acts'.
Proof. unfold exec. apply fold_left_app. Qed.

Lemma wf_reachable acts : wf (exec (init_world (T:=T) (A:=A)) acts).
Proof. apply wf_exec, wf_init. Qed.

End Preservation.

(** ** What a step leaves alone *)

Section Frame.
Context {T A : Type} `{Zero T}.

Implicit Types (w : World T A) (f : Fetcher T A) (l g : nat)
  (thr : Goroutine T).

Lemma completed_world_other g l' ctx f' res evs w l :
  l ≠ l' → (∀ k, EvCall k ∉ evs) →
  heap (completed_world g l' ctx f' res evs w) !! l = heap w !! l ∧
  (EvCall l ∈ trace (completed_world g l' ctx f' res evs w) →
   EvCall l ∈ trace w).
Proof.
  intros Hne Hevs. unfold completed_world. simpl. split.
  - by rewrite list_lookup_insert_ne.
  - rewrite !elem_of_app. intros [Hin|[Hin|Hin]]; [done| |].
    + by apply Hevs in Hin.
    + by apply list_elem_of_singleton in Hin.
Qed.

Lemma section_outcome_frame w g w' l f :
  heap w !! l = Some f → quiet l w → section_outcome w g w' →
  heap w' !! l = Some f ∧ (EvCall l ∈ trace w' → EvCall l ∈ trace w).
Proof.
  intros Hf Hq Hout.
  destruct Hout as [|thr f' Hg Hst Hf'|thr f' res evs Hg Hlive Hf' Hevs
                    |evs p Hevs].
  - done.
  - simpl. split; [done|]. rewrite elem_of_app. intros [Hin|Hin]; [done|].
    apply list_elem_of_singleton in Hin. injection Hin as Heq.
    specialize (Hq g thr Hg (eq_sym Heq)). congruence.
  - rewrite <- Hf. apply completed_world_other; [|done].
    intros ->. by apply Hlive, (Hq g thr).
  - simpl. split; [done|]. rewrite elem_of_app. intros [Hin|Hin]; [done|].
    by apply Hevs in Hin.
Qed.

(** A step changes neither the handle at [l] nor the calls of its [Fn],
    unless it is the [Run] that starts the handle or a step of the
    goroutine of the handle. *)
Lemma step_frame w a l f :
  wf w → heap w !! l = Some f → quiet l w →
  ch f ≠ None ∨ ¬ is_Run_of l a →
  heap (step w a) !! l = Some f ∧
  (EvCall l ∈ trace (step w a) → EvCall l ∈ trace w).
Proof.
  intros Hwf Hf Hq Hrun. unfold step.
  destruct (crashed w) eqn:Hcr; [done|].
  destruct a as [fn arg|l' ctx|g|g|handlers|]; simpl; try done.
  - split; [|done]. by apply lookup_app_l_Some.
  - destruct (heap w !! l') as [f'|] eqn:Hf';
      [|by unfold Run; rewrite Hf'].
    destruct (ch f') as [c|] eqn:Hc'.
    { rewrite (Run_started w l' ctx f'); [done|done|by rewrite Hc']. }
    rewrite (Run_created w l' ctx f') by done. simpl.
    assert (l ≠ l') as Hne.
    { intros ->. rewrite Hf in Hf'. injection Hf' as ->.
      destruct Hrun as [Hs|Hn]; [done|]. by apply Hn. }
    split; [by rewrite list_lookup_insert_ne|].
    rewrite elem_of_app. intros [Hin|Hin]; [done|].
    by apply list_elem_of_singleton in Hin.
  - by apply (section_outcome_frame w g), goroutine_start_outcome.
  - by apply (section_outcome_frame w g), goroutine_finish_outcome.
Qed.

Lemma closed_quiet w l f :
  wf w → heap w !! l = Some f → ch f = Some Closed → quiet l w.
Proof.
  intros Hwf Hf Hc g thr Hg Heq. subst l.
  by apply (wf_closed_exited w g thr f).
Qed.

(** A completed handle is never written again, and its [Fn] is never
    entered again. *)
Lemma completed_stable w acts l f :
  wf w → heap w !! l = Some f → ch f = Some Closed →
  heap (exec w acts) !! l = Some f ∧
  (EvCall l ∈ trace (exec w acts) → EvCall l ∈ trace w).
Proof.
  revert w. induction acts as [|a acts IH]; intros w Hwf Hf Hc; [done|].
  simpl.
  destruct (step_frame w a l f Hwf Hf) as [Hf' Htr].
  { by apply (closed_quiet w l f). }
  { left. by rewrite Hc. }
  destruct (IH (step w a)) as [Hf'' Htr'']; [by apply wf_step|done|done|].
  split; [done|]. intros Hin. by apply Htr, Htr''.
Qed.

Lemma Await_closed w l f :
  heap w !! l = Some f → ch f = Some Closed →
  Await l w = AwaitReturns (Value (result f)) (Err (result f)).
Proof. intros Hf Hc. unfold Await. by rewrite Hf, Hc. Qed.

(** Once [Await] returns, it returns the same pair for ever. *)
Lemma Await_stable w acts l val err :
  wf w → Await l w = AwaitReturns val err →
  Await l (exec w acts) = AwaitReturns val err.
Proof.
  intros Hwf Haw. unfold Await in Haw.
  destruct (heap w !! l) as [f|] eqn:Hf; [|done].
  destruct (ch f) as [[|]|] eqn:Hc; try done.
  destruct (completed_stable w acts l f Hwf Hf Hc) as [Hf' _].
  unfold Await. by rewrite Hf', Hc.
Qed.

Lemma completed_world_Await g l ctx f res evs w :
  l < length (heap w) →
  Await l (completed_world g l ctx f res evs w)
  = AwaitReturns (Value res) (Err res).
Proof.
  intros Hlt. unfold Await, completed_world. simpl.
  by rewrite list_lookup_insert_eq.
Qed.

End Frame.

(** ** Goroutines are spawned by [Run] only *)

Section Spawning.
Context {T A : Type} `{Zero T}.

Implicit Types (w : World T A) (f : Fetcher T A) (l g : nat)
  (thr : Goroutine T).

Lemma threads_store_result l res w : threads (store_result l res w) = threads w.
Proof. unfold store_result. by destruct (heap w !! l). Qed.

Lemma threads_store_Err l e w : threads (store_Err l e w) = threads w.
Proof. unfold store_Err. by destruct (heap w !! l). Qed.

Lemma threads_close_ch l w : threads (close_ch l w) = threads w.
Proof.
  unfold close_ch. destruct (heap w !! l) as [f|]; [|done].
  by destruct (ch f) as [[|]|].
Qed.

Lemma handles_set_status g st w : handles (set_status g st w) = handles w.
Proof.
  unfold set_status, handles.
  destruct (threads w !! g) as [thr|] eqn:Hg; [|done]. simpl.
  rewrite list_fmap_insert. simpl. apply list_insert_id.
  by rewrite list_lookup_fmap, Hg.
Qed.

Lemma handles_exit_goroutine g w : handles (exit_goroutine g w) = handles w.
Proof.
  unfold exit_goroutine. destruct (crashed w); [done|].
  apply handles_set_status.
Qed.

Lemma handles_deferred g l ctx r w : handles (deferred g l ctx r w) = handles w.
Proof.
  unfold deferred. destruct r as [p|].
  - destruct (handlePanicErr g ctx p (globalPanicHandlers w)) as [evs [p'|]].
    + done.
    + rewrite handles_exit_goroutine. unfold handles.
      by rewrite threads_close_ch, threads_store_Err.
  - rewrite handles_exit_goroutine. unfold handles.
    by rewrite threads_close_ch.
Qed.

Lemma handles_goroutine_start g w : handles (goroutine_start g w) = handles w.
Proof.
  unfold goroutine_start.
  destruct (threads w !! g) as [thr|]; [|done].
  destruct (g_status thr); try done.
  destruct (heap w !! g_handle thr) as [f|]; [|done].
  destruct (ctx_Done (g_ctx thr) (now w)).
  - rewrite handles_deferred. unfold handles. by rewrite threads_store_result.
  - by rewrite handles_set_status.
Qed.

Lemma handles_goroutine_finish g w : handles (goroutine_finish g w) = handles w.
Proof.
  unfold goroutine_finish.
  destruct (threads w !! g) as [thr|]; [|done].
  destruct (g_status thr) as [|t0 [d val err|d r|]|]; try done.
  - destruct (t0 + d <=? now w); [|done].
    rewrite handles_deferred. unfold handles. by rewrite threads_store_result.
  - destruct (t0 + d <=? now w); [|done]. by rewrite handles_deferred.
Qed.

(** A step spawns a goroutine for [l] only if it is a [Run] of [l]. *)
Lemma handles_step w a :
  handles (step w a) = handles w ∨
  ∃ l ctx, a = ARun l ctx ∧ handles (step w a) = handles w ++ [l].
Proof.
  unfold step. destruct (crashed w); [by left|].
  destruct a as [fn arg|l ctx|g|g|handlers|]; try (by left).
  - unfold Run. destruct (heap w !! l) as [f|]; [|by left].
    destruct (ch f); [by left|]. right. exists l, ctx. split; [done|].
    unfold handles. simpl. by rewrite fmap_app.
  - left. apply handles_goroutine_start.
  - left. apply handles_goroutine_finish.
Qed.

Lemma handles_exec_mono w acts l :
  l ∈ handles w → l ∈ handles (exec w acts).
Proof.
  revert w. induction acts as [|a acts IH]; intros w Hin; [done|].
  simpl. apply IH.
  destruct (handles_step w a) as [->|(l' & ctx & _ & ->)]; [done|].
  apply elem_of_app. by left.
Qed.

(** A handle that has a goroutine has been the target of a [Run]. *)
Lemma handles_exec_Run acts l :
  l ∈ handles (exec (init_world (T:=T) (A:=A)) acts) →
  Exists (is_Run_of l) acts.
Proof.
  induction acts as [|a acts IH] using rev_ind.
  - intros Hin. by apply elem_of_nil in Hin.
  - rewrite exec_app. simpl. intros Hin. apply Exists_app.
    destruct (handles_step (exec init_world acts) a)
      as [Heq|(l' & ctx & -> & Heq)]; rewrite Heq in Hin.
    + left. by apply IH.
    + apply elem_of_app in Hin as [Hin|Hin]; [left; by apply IH|].
      apply list_elem_of_singleton in Hin as ->.
      right. by apply Exists_cons_hd.
Qed.

Lemma wf_handles_NoDup w : wf w → NoDup (handles w).
Proof.
  intros Hwf. apply NoDup_alt. intros i j l Hi Hj.
  unfold handles in *. rewrite list_lookup_fmap in Hi, Hj.
  destruct (threads w !! i) as [t1|] eqn:Hi1; [|done].
  destruct (threads w !! j) as [t2|] eqn:Hj1; [|done].
  simpl in *. apply (wf_unique w Hwf i j t1 t2); congruence.
Qed.

Lemma filter_eq_absent (xs : list nat) l : l ∉ xs → filter (l =.) xs = [].
Proof.
  induction xs as [|x xs IH]; [done|]. intros Hnin.
  apply not_elem_of_cons in Hnin as [Hne Hnin].
  rewrite filter_cons_False by done. by apply IH.
Qed.

Lemma filter_eq_NoDup (xs : list nat) l :
  NoDup xs → l ∈ xs → filter (l =.) xs = [l].
Proof.
  induction 1 as [|x xs Hx Hnd IH]; intros Hin.
  - by apply elem_of_nil in Hin.
  - apply elem_of_cons in Hin as [->|Hin].
    + rewrite filter_cons_True by done. by rewrite filter_eq_absent.
    + rewrite filter_cons_False; [by apply IH|]. intros ->. done.
Qed.

Lemma spawned_started w l f :
  wf w → heap w !! l = Some f → ch f ≠ None → spawned l w = 1.
Proof.
  intros Hwf Hf Hc. unfold spawned.
  rewrite (filter_eq_NoDup (handles w) l); [done|by apply wf_handles_NoDup|].
  destruct (wf_started w Hwf l f Hf Hc) as (g & thr & Hg & <-).
  unfold handles. apply list_elem_of_fmap. exists thr. split; [done|].
  apply list_elem_of_lookup. by exists g.
Qed.

Lemma spawned_created w l f :
  wf w → heap w !! l = Some f → ch f = None → spawned l w = 0.
Proof.
  intros Hwf Hf Hc. unfold spawned.
  rewrite filter_eq_absent; [done|]. unfold handles. intros Hin.
  apply list_elem_of_fmap in Hin as (thr & -> & Hin).
  apply list_elem_of_lookup in Hin as (g & Hg).
  by apply (wf_created_no_thread w (g_handle thr) f g thr).
Qed.

(** A handle that has a goroutine has its channel. *)
Lemma handles_started w l :
  wf w → l ∈ handles w → ∃ f, heap w !! l = Some f ∧ ch f ≠ None.
Proof.
  intros Hwf Hin. unfold handles in Hin.
  apply list_elem_of_fmap in Hin as (thr & -> & Hin).
  apply list_elem_of_lookup in Hin as (g & Hg).
  destruct (wf_threads w Hwf g thr Hg) as (f & Hf & Hc).
  exists f. split; [done|]. by rewrite Hc.
Qed.

End Spawning.

(** ** The properties of the handle *)

Section Claims.
Context {T A : Type} `{Zero T}.

Implicit Types (w : World T A) (f : Fetcher T A) (l g : nat)
  (thr : Goroutine T) (acts : list (Action T A)).

Lemma exec_crashed w acts p : crashed w = Some p → exec w acts = w.
Proof.
  intros Hcr. induction acts as [|a acts IH]; [done|].
  assert (step w a = w) as Hs by (unfold step; by rewrite Hcr).
  unfold exec in *. simpl. by rewrite Hs.
Qed.

Lemma step_AFinish w g :
  crashed w = None → step w (AFinish g) = goroutine_finish g w.
Proof. intros Hcr. unfold step. by rewrite Hcr. Qed.

Lemma step_AStart w g :
  crashed w = None → step w (AStart g) = goroutine_start g w.
Proof. intros Hcr. unfold step. by rewrite Hcr. Qed.

Lemma merge_err_Some ctx t e : merge_err ctx t (Some e) = Some e.
Proof. unfold merge_err. by destruct (ctx_Err ctx t). Qed.

Lemma merge_err_None ctx t : merge_err ctx t None = ctx_Err ctx t.
Proof. unfold merge_err. by destruct (ctx_Err ctx t). Qed.

(** The goroutine that finds its context fired before the call stores the
    zero value and the error of the context. *)
Lemma finish_cancelled w g thr :
  wf w → crashed w = None →
  threads w !! g = Some thr → g_status thr = Spawned →
  ctx_Done (g_ctx thr) (now w) = true →
  ∃ f, heap w !! g_handle thr = Some f ∧
       step w (AStart g)
       = completed_world g (g_handle thr) (g_ctx thr) f
           (MkResult zero (ctx_Err (g_ctx thr) (now w))) [] w.
Proof.
  intros Hwf Hcr Hg Hst Hdone.
  destruct (wf_thread_open w g thr Hwf Hg) as (f & Hf & Hc & _);
    [by rewrite Hst|].
  exists f. split; [done|]. rewrite step_AStart by done.
  by apply goroutine_start_cancelled.
Qed.

(** The goroutine whose call has returned stores the value as it is, and
    the error after the second look at the context. *)
Lemma finish_returned w g thr t0 d val err :
  wf w → crashed w = None →
  threads w !! g = Some thr → g_status thr = Running t0 (Returns d val err) →
  t0 + d ≤ now w →
  ∃ f, heap w !! g_handle thr = Some f ∧
       step w (AFinish g)
       = completed_world g (g_handle thr) (g_ctx thr) f
           (returned_result (g_ctx thr) (now w) val err) [] w.
Proof.
  intros Hwf Hcr Hg Hst Hdue.
  destruct (wf_thread_open w g thr Hwf Hg) as (f & Hf & Hc & _);
    [by rewrite Hst|].
  exists f. split; [done|]. rewrite step_AFinish by done.
  by apply goroutine_finish_returned with t0 d.
Qed.

(** The goroutine whose call has panicked, when every handler returns:
    the value is still the zero value of [Async]. *)
Lemma finish_recovered w g thr t0 d r :
  wf w → crashed w = None →
  threads w !! g = Some thr → g_status thr = Running t0 (Panics d r) →
  t0 + d ≤ now w →
  Forall (returns_normally (g_ctx thr) r) (globalPanicHandlers w) →
  ∃ f, heap w !! g_handle thr = Some f ∧
       step w (AFinish g)
       = completed_world g (g_handle thr) (g_ctx thr) f
           (MkResult zero (Some (Errorf "[Fetcher.Async]: panic recovered: " r)))
           (EvLog (log_line r (debug_Stack g))
              :: ((λ fn, EvHandler (h_name fn) (g_ctx thr) r)
                    <$> globalPanicHandlers w)) w.
Proof.
  intros Hwf Hcr Hg Hst Hdue Hok.
  destruct (wf_thread_open w g thr Hwf Hg) as (f & Hf & Hc & Hz);
    [by rewrite Hst|].
  exists f. split; [done|]. rewrite step_AFinish by done.
  rewrite (goroutine_finish_recovered w g thr f t0 d r) by
    (try done; by rewrite handlePanicErr_ok).
  rewrite handlePanicErr_ok by done. simpl.
  unfold recovered_result. by rewrite Hz.
Qed.

Lemma Await_completed_for_ever w w' g l ctx f res evs acts :
  wf w → wf w' → heap w !! l = Some f →
  w' = completed_world g l ctx f res evs w →
  Await l (exec w' acts) = AwaitReturns (Value res) (Err res).
Proof.
  intros Hwf Hwf' Hf ->.
  apply Await_stable; [done|]. apply completed_world_Await.
  by eapply lookup_lt_Some.
Qed.

(** [Run] on a handle that has no channel spawns its goroutine, and an
    [Await] made from then on waits. *)
Lemma Run_spawns w l ctx f :
  heap w !! l = Some f → ch f = None →
  threads (Run l ctx w).1 !! length (threads w)
  = Some (MkGoroutine l ctx Spawned) ∧
  Await l (Run l ctx w).1 = AwaitBlocks.
Proof.
  intros Hf Hc. rewrite (Run_created w l ctx f) by done. simpl. split.
  - by apply list_lookup_middle.
  - unfold Await. simpl.
    rewrite list_lookup_insert_eq by (by eapply lookup_lt_Some). done.
Qed.

(** The goroutine that finds its context not fired enters [Fn] with the
    captured context and [Arg]. *)
Lemma start_enters_Fn w g thr f :
  crashed w = None →
  threads w !! g = Some thr → g_status thr = Spawned →
  heap w !! g_handle thr = Some f →
  ctx_Done (g_ctx thr) (now w) = false →
  threads (step w (AStart g)) !! g
  = Some (MkGoroutine (g_handle thr) (g_ctx thr)
            (Running (now w) (Fn f (g_ctx thr) (Arg f) (now w)))) ∧
  trace (step w (AStart g)) = trace w ++ [EvCall (g_handle thr)].
Proof.
  intros Hcr Hg Hst Hf Hdone. rewrite step_AStart by done.
  rewrite (goroutine_start_call w g thr f) by done. simpl. split; [|done].
  rewrite list_lookup_insert_eq by (by eapply lookup_lt_Some). done.
Qed.

(** What a running goroutine is recorded to do is what [Fn] does. *)
Lemma Running_is_Fn w g thr f t0 b :
  wf w → threads w !! g = Some thr → heap w !! g_handle thr = Some f →
  g_status thr = Running t0 b → b = Fn f (g_ctx thr) (Arg f) t0.
Proof.
  intros Hwf Hg Hf Hst.
  destruct (wf_running w Hwf g thr t0 b Hg Hst) as (f' & Hf' & Hb).
  congruence.
Qed.

(** C1, as amended: when the call [f.Fn(ctx, f.Arg)] made by the
    goroutine of a handle returns a value [val] together with a non-nil
    error [e], [Await] returns that same value
    (whether or not it is the zero value) paired with exactly [e], at the
    end of the goroutine and in every later state. *)
Theorem Await_functional_error acts acts' g thr f t0 b d val e :
  let w := exec init_world acts in
  crashed w = None →
  threads w !! g = Some thr →
  heap w !! g_handle thr = Some f →
  g_status thr = Running t0 b →
  Fn f (g_ctx thr) (Arg f) t0 = Returns d val (Some e) →
  t0 + d ≤ now w →
  Await (g_handle thr) (exec (step w (AFinish g)) acts')
  = AwaitReturns val (Some e).
Proof.
  intros w Hcr Hg Hf0 Hst HFn Hdue.
  assert (wf w) as Hwf by apply wf_reachable.
  rewrite (Running_is_Fn w g thr f t0 b Hwf Hg Hf0 Hst), HFn in Hst.
  clear Hf0 HFn f.
  destruct (finish_returned w g thr t0 d val (Some e)) as (f & Hf & Heq);
    try done.
  rewrite (Await_completed_for_ever w _ g (g_handle thr) (g_ctx thr) f
             (returned_result (g_ctx thr) (now w) val (Some e)) [] acts');
    try done.
  - simpl. by rewrite merge_err_Some.
  - by apply wf_step.
Qed.

(** C2, as amended: when the call [f.Fn(ctx, f.Arg)] made by the
    goroutine of a handle panics with payload [r] and every handler registered at that moment returns, [Await]
    returns the zero value of [T] and a non-nil error whose message ends
    with the text of [r], at the end of the goroutine and in every later
    state. *)
Theorem Await_recovered_panic acts acts' g thr f t0 b d r :
  let w := exec init_world acts in
  crashed w = None →
  threads w !! g = Some thr →
  heap w !! g_handle thr = Some f →
  g_status thr = Running t0 b →
  Fn f (g_ctx thr) (Arg f) t0 = Panics d r →
  t0 + d ≤ now w →
  Forall (returns_normally (g_ctx thr) r) (globalPanicHandlers w) →
  ∃ e, Await (g_handle thr) (exec (step w (AFinish g)) acts')
       = AwaitReturns zero (Some e) ∧
       Error e = "[Fetcher.Async]: panic recovered: " +:+ fmt_v r.
Proof.
  intros w Hcr Hg Hf0 Hst HFn Hdue Hok.
  assert (wf w) as Hwf by apply wf_reachable.
  rewrite (Running_is_Fn w g thr f t0 b Hwf Hg Hf0 Hst), HFn in Hst.
  clear Hf0 HFn f.
  destruct (finish_recovered w g thr t0 d r) as (f' & Hf & Heq); try done.
  exists (Errorf "[Fetcher.Async]: panic recovered: " r). split; [|done].
  by rewrite (Await_completed_for_ever w _ g (g_handle thr) (g_ctx thr) f' _ _
                acts' Hwf (wf_step w _ Hwf) Hf Heq).
Qed.

(** C3: when the call [f.Fn(ctx, f.Arg)] made by the goroutine of a
    handle returns [(val, nil)] and the context never fires, an [Await]
    made before the goroutine has finished waits, and once it has
    finished [Await] returns [val] with a nil error; every
    [Await] on the handle in any later state, whatever else has run in
    between, returns the identical pair. *)
Theorem Await_success acts g thr f t0 b d val :
  let w := exec init_world acts in
  crashed w = None →
  threads w !! g = Some thr →
  heap w !! g_handle thr = Some f →
  g_status thr = Running t0 b →
  Fn f (g_ctx thr) (Arg f) t0 = Returns d val None →
  (∀ t, ctx_Err (g_ctx thr) t = None) →
  t0 + d ≤ now w →
  Await (g_handle thr) w = AwaitBlocks ∧
  Await (g_handle thr) (step w (AFinish g)) = AwaitReturns val None ∧
  ∀ acts', Await (g_handle thr) (exec (step w (AFinish g)) acts')
           = Await (g_handle thr) (step w (AFinish g)).
Proof.
  intros w Hcr Hg Hf0 Hst HFn Hnever Hdue.
  assert (wf w) as Hwf by apply wf_reachable.
  split.
  { destruct (wf_thread_open w g thr Hwf Hg) as (f1 & Hf1 & Hc1 & _);
      [by rewrite Hst|].
    unfold Await. by rewrite Hf1, Hc1. }
  rewrite (Running_is_Fn w g thr f t0 b Hwf Hg Hf0 Hst), HFn in Hst.
  clear Hf0 HFn f.
  destruct (finish_returned w g thr t0 d val None) as (f' & Hf & Heq);
    try done.
  assert (∀ acts', Await (g_handle thr) (exec (step w (AFinish g)) acts')
                   = AwaitReturns val None) as Hall.
  { intros acts'.
    rewrite (Await_completed_for_ever w _ g (g_handle thr) (g_ctx thr) f' _ _
               acts' Hwf (wf_step w _ Hwf) Hf Heq).
    simpl. by rewrite merge_err_None, Hnever. }
  split; [apply (Hall [])|].
  intros acts'. rewrite Hall. symmetry. apply (Hall []).
Qed.

(** The [Fn] of a handle whose goroutine has not passed the [select] has
    not been entered. *)
Lemma Spawned_not_called w g thr :
  wf w → threads w !! g = Some thr → g_status thr = Spawned →
  EvCall (g_handle thr) ∉ trace w.
Proof.
  intros Hwf Hg Hst Hin.
  destruct (wf_calls w Hwf _ Hin) as (g' & thr' & Hg' & Heq & Hst').
  assert (g' = g) as -> by (by apply (wf_unique w Hwf g' g thr' thr)).
  congruence.
Qed.

(** C4: when the context has already fired at the moment the goroutine
    begins, the goroutine stores the zero value of [T] with the (non-nil)
    error of the context, and [Fn] is not entered, then or ever after;
    [Await] returns that pair. *)
Theorem cancelled_before_call acts g thr :
  let w := exec init_world acts in
  let w' := step w (AStart g) in
  crashed w = None →
  threads w !! g = Some thr →
  g_status thr = Spawned →
  ctx_Done (g_ctx thr) (now w) = true →
  (∃ f', heap w' !! g_handle thr = Some f' ∧
         result f' = MkResult zero (ctx_Err (g_ctx thr) (now w))) ∧
  ctx_Err (g_ctx thr) (now w) ≠ None ∧
  ∀ acts',
    (EvCall (g_handle thr) ∉ trace (exec w' acts')) ∧
    Await (g_handle thr) (exec w' acts')
    = AwaitReturns zero (ctx_Err (g_ctx thr) (now w)).
Proof.
  intros w w' Hcr Hg Hst Hdone.
  assert (wf w) as Hwf by apply wf_reachable.
  assert (wf w') as Hwf' by (by apply wf_step).
  destruct (finish_cancelled w g thr) as (f & Hf & Heq); try done.
  fold w' in Heq.
  assert (g_handle thr < length (heap w)) as Hlt by (by eapply lookup_lt_Some).
  assert (heap w' !! g_handle thr
          = Some (MkFetcher (Fn f) (Arg f)
                    (MkResult zero (ctx_Err (g_ctx thr) (now w))) (Some Closed)))
    as Hf'.
  { rewrite Heq. unfold completed_world. simpl.
    by rewrite list_lookup_insert_eq. }
  split; [by eexists|].
  split.
  { unfold ctx_Done in Hdone. by destruct (ctx_Err (g_ctx thr) (now w)). }
  intros acts'.
  destruct (completed_stable w' acts' _ _ Hwf' Hf' eq_refl) as [Hf'' Htr].
  split.
  - intros Hin. apply Htr in Hin. rewrite Heq in Hin.
    unfold completed_world in Hin. simpl in Hin.
    apply elem_of_app in Hin as [Hin|Hin].
    + by apply (Spawned_not_called w g thr).
    + by apply list_elem_of_singleton in Hin.
  - unfold Await. by rewrite Hf''.
Qed.

(** C5: when the call [f.Fn(ctx, f.Arg)] made by the goroutine of a
    handle returns [(val, err)], the goroutine
    stores [val]; if [err] is nil and the context reports an error after
    the call, the stored error is the error of the context; if [err] is
    not nil it is stored unchanged, whatever the context reports. *)
Theorem cancellation_after_call acts g thr f t0 b d val err :
  let w := exec init_world acts in
  crashed w = None →
  threads w !! g = Some thr →
  heap w !! g_handle thr = Some f →
  g_status thr = Running t0 b →
  Fn f (g_ctx thr) (Arg f) t0 = Returns d val err →
  t0 + d ≤ now w →
  ∃ f', heap (step w (AFinish g)) !! g_handle thr = Some f' ∧
        Value (result f') = val ∧
        (∀ ce, err = None → ctx_Err (g_ctx thr) (now w) = Some ce →
               Err (result f') = Some ce) ∧
        (∀ e, err = Some e → Err (result f') = Some e).
Proof.
  intros w Hcr Hg Hf0 Hst HFn Hdue.
  assert (wf w) as Hwf by apply wf_reachable.
  rewrite (Running_is_Fn w g thr f t0 b Hwf Hg Hf0 Hst), HFn in Hst.
  clear Hf0 HFn f.
  destruct (finish_returned w g thr t0 d val err) as (f' & Hf & Heq); try done.
  assert (g_handle thr < length (heap w)) as Hlt by (by eapply lookup_lt_Some).
  eexists. split.
  { rewrite Heq. unfold completed_world. simpl.
    by rewrite list_lookup_insert_eq. }
  simpl. split; [done|]. split.
  - intros ce -> Hce. by rewrite merge_err_None.
  - intros e ->. by rewrite merge_err_Some.
Qed.

(** C6: once [Run] has been called on a handle, whatever has happened
    since, a further [Run] returns the same handle and leaves the whole
    world as it is (no new channel, no change of the stored state, no
    goroutine spawned); exactly one goroutine has been spawned for the
    handle. *)
Theorem Run_twice acts acts' l ctx ctx' f :
  let w0 := exec init_world acts in
  let w := exec (Run l ctx w0).1 acts' in
  heap w0 !! l = Some f →
  Run l ctx' w = (w, l) ∧
  step w (ARun l ctx') = w ∧
  spawned l w = 1.
Proof.
  intros w0 w Hf.
  assert (wf w0) as Hwf0 by apply wf_reachable.
  assert (wf (Run l ctx w0).1) as Hwf1 by (by apply wf_Run).
  assert (wf w) as Hwf by (by apply wf_exec).
  assert (l ∈ handles (Run l ctx w0).1) as Hin1.
  { destruct (ch f) as [c|] eqn:Hc.
    - rewrite (Run_started w0 l ctx f); [|done|by rewrite Hc]. simpl.
      destruct (wf_started w0 Hwf0 l f Hf) as (g & thr & Hg & <-);
        [by rewrite Hc|].
      unfold handles. apply list_elem_of_fmap. exists thr. split; [done|].
      apply list_elem_of_lookup. by exists g.
    - rewrite (Run_created w0 l ctx f) by done. unfold handles. simpl.
      rewrite fmap_app. apply elem_of_app. right. simpl.
      by apply list_elem_of_singleton. }
  assert (l ∈ handles w) as Hin by (by apply handles_exec_mono).
  destruct (handles_started w l Hwf Hin) as (f' & Hf' & Hc').
  assert (Run l ctx' w = (w, l)) as HRun by (by apply Run_started with f').
  split; [done|]. split.
  - unfold step. destruct (crashed w); [done|]. by rewrite HRun.
  - by apply spawned_started with f'.
Qed.

(** C7: on a handle on which [Run] has never been called, [Await] neither
    returns nor blocks: it panics with the message of the source. *)
Theorem Await_before_Run acts l f :
  let w := exec init_world acts in
  heap w !! l = Some f →
  Forall (λ a, ¬ is_Run_of l a) acts →
  Await l w = AwaitPanics "fetcher not started, call Run() first".
Proof.
  intros w Hf Hno.
  assert (wf w) as Hwf by apply wf_reachable.
  assert (ch f = None) as Hc.
  { destruct (ch f) as [c|] eqn:Hc; [|done]. exfalso.
    destruct (wf_started w Hwf l f Hf) as (g & thr & Hg & Heq);
      [by rewrite Hc|].
    assert (l ∈ handles w) as Hin.
    { unfold handles. apply list_elem_of_fmap. exists thr. split; [done|].
      apply list_elem_of_lookup. by exists g. }
    apply handles_exec_Run in Hin.
    by apply (Forall_not_Exists (is_Run_of l) acts). }
  unfold Await. by rewrite Hf, Hc.
Qed.

(** C8, as amended: when the call [f.Fn(ctx, f.Arg)] made by the
    goroutine of a handle panics with payload [r] and every handler registered at that moment returns, the recovery
    first writes one log line that holds the payload and the stack, then
    enters each registered handler once, in registration order, with the
    same context and payload, and only then closes the channel; with no
    handler registered the log line is still written and no handler is
    entered. *)
Theorem recovery_log_then_handlers acts g thr f t0 b d r :
  let w := exec init_world acts in
  crashed w = None →
  threads w !! g = Some thr →
  heap w !! g_handle thr = Some f →
  g_status thr = Running t0 b →
  Fn f (g_ctx thr) (Arg f) t0 = Panics d r →
  t0 + d ≤ now w →
  Forall (returns_normally (g_ctx thr) r) (globalPanicHandlers w) →
  trace (step w (AFinish g))
  = trace w
    ++ [EvLog ("[ERROR] Panic recovered - " +:+ fmt_v r +:+ newline
               +:+ debug_Stack g)]
    ++ ((λ fn, EvHandler (h_name fn) (g_ctx thr) r) <$> globalPanicHandlers w)
    ++ [EvClose (g_handle thr)] ∧
  (globalPanicHandlers w = [] →
   trace (step w (AFinish g))
   = trace w
     ++ [EvLog ("[ERROR] Panic recovered - " +:+ fmt_v r +:+ newline
                +:+ debug_Stack g);
         EvClose (g_handle thr)]).
Proof.
  intros w Hcr Hg Hf0 Hst HFn Hdue Hok.
  assert (wf w) as Hwf by apply wf_reachable.
  rewrite (Running_is_Fn w g thr f t0 b Hwf Hg Hf0 Hst), HFn in Hst.
  clear Hf0 HFn f.
  destruct (finish_recovered w g thr t0 d r) as (f' & Hf & Heq); try done.
  assert (trace (step w (AFinish g))
          = trace w
            ++ [EvLog (log_line r (debug_Stack g))]
            ++ ((λ fn, EvHandler (h_name fn) (g_ctx thr) r)
                  <$> globalPanicHandlers w)
            ++ [EvClose (g_handle thr)]) as Htr.
  { rewrite Heq. unfold completed_world. simpl. done. }
  split; [done|].
  intros Hnil. rewrite Htr, Hnil. done.
Qed.

(** C10, as amended: when the call [f.Fn(ctx, f.Arg)] made by the
    goroutine of a handle panics with payload [r] after the context has
    fired, and every handler registered at that
    moment returns, the stored error is the error made from the panic: the
    error [ce] of the context does not replace it. *)
Theorem panic_error_kept_after_cancellation acts g thr f t0 b d r ce :
  let w := exec init_world acts in
  crashed w = None →
  threads w !! g = Some thr →
  heap w !! g_handle thr = Some f →
  g_status thr = Running t0 b →
  Fn f (g_ctx thr) (Arg f) t0 = Panics d r →
  t0 + d ≤ now w →
  ctx_Err (g_ctx thr) (now w) = Some ce →
  Forall (returns_normally (g_ctx thr) r) (globalPanicHandlers w) →
  ∃ f', heap (step w (AFinish g)) !! g_handle thr = Some f' ∧
        ch f' = Some Closed ∧
        result f'
        = MkResult zero (Some (Errorf "[Fetcher.Async]: panic recovered: " r)) ∧
        (ce ≠ Errorf "[Fetcher.Async]: panic recovered: " r →
         Err (result f') ≠ Some ce).
Proof.
  intros w Hcr Hg Hf0 Hst HFn Hdue Hce Hok.
  assert (wf w) as Hwf by apply wf_reachable.
  rewrite (Running_is_Fn w g thr f t0 b Hwf Hg Hf0 Hst), HFn in Hst.
  clear Hf0 HFn f.
  destruct (finish_recovered w g thr t0 d r) as (f' & Hf & Heq); try done.
  assert (g_handle thr < length (heap w)) as Hlt by (by eapply lookup_lt_Some).
  eexists. split.
  { rewrite Heq. unfold completed_world. simpl.
    by rewrite list_lookup_insert_eq. }
  simpl. split; [done|]. split; [done|].
  intros Hne Heq'. apply Hne. congruence.
Qed.

End Claims.

(** ** The tests of fetcher_test.go, and other runs *)

Module Runs.
Import Tests.

(** [TestFetcher_Error]: [Async(fetchUser, -1).Run(ctx)], awaited after
    the 100ms of the call and once more later. *)
Lemma Await_functional_error_witness :
  let acts := [AAsync fetchUser (-1)%Z; ARun 0 Background; AStart 0]
              ++ replicate 100 ATick in
  let w := exec world0 acts in
  fetchUser Background (-1)%Z 0
  = Returns 100 "" (Some (MkError "invalid user ID")) ∧
  Await 0 (exec (step w (AFinish 0)) [ATick])
  = AwaitReturns "" (Some (MkError "invalid user ID")).
Proof.
  intros acts w. split; [reflexivity|].
  apply (Await_functional_error acts [ATick] 0
           (MkGoroutine 0 Background
              (Running 0 (Returns 100 "" (Some (MkError "invalid user ID")))))
           (MkFetcher fetchUser (-1)%Z (MkResult "" None) (Some Open))
           0 (Returns 100 "" (Some (MkError "invalid user ID")))
           100 "" (MkError "invalid user ID"));
    [reflexivity..|vm_compute; lia].
Defined.

(** A function that returns a value with its error: [Await] hands out
    that value, not the zero value. *)
Lemma Await_error_value_not_zero :
  let w := exec world0 [AAsync readPartial 1%Z; ARun 0 Background; AStart 0;
                        AFinish 0] in
  readPartial Background 1%Z 0
  = Returns 0 "partial" (Some (MkError "unexpected EOF")) ∧
  Await 0 w = AwaitReturns "partial" (Some (MkError "unexpected EOF")) ∧
  Await 0 w ≠ AwaitReturns zero (Some (MkError "unexpected EOF")).
Proof. intros w. split; [reflexivity|]. split; [reflexivity|]. discriminate. Qed.

(** [TestFetcher_PanicHandlerCalled]: one handler that returns is
    registered, [panicFn] panics with ["boom"]. *)
Lemma Await_recovered_panic_witness :
  let acts := [ASetPanicHandlers [noteHandler]; AAsync panicFn 1%Z;
               ARun 0 Background; AStart 0] in
  let w := exec world0 acts in
  ∃ e, Await 0 (exec (step w (AFinish 0)) [ATick]) = AwaitReturns zero (Some e) ∧
       Error e = "[Fetcher.Async]: panic recovered: boom".
Proof.
  intros acts w.
  apply (Await_recovered_panic acts [ATick] 0
           (MkGoroutine 0 Background (Running 0 (Panics 0 (AnyString "boom"))))
           (MkFetcher panicFn 1%Z (MkResult "" None) (Some Open))
           0 (Panics 0 (AnyString "boom")) 0 (AnyString "boom"));
    [reflexivity..|vm_compute; lia|].
  repeat constructor.
Defined.

(** With a handler that panics in turn, the deferred function is left
    before it stores the error and closes the channel; the process ends
    and no [Await] on the handle ever returns. *)
Lemma Await_blocks_when_handler_panics :
  let w := exec world0 [ASetPanicHandlers [failingHandler]; AAsync panicFn 1%Z;
                        ARun 0 Background; AStart 0; AFinish 0] in
  panicFn Background 1%Z 0 = Panics 0 (AnyString "boom") ∧
  crashed w = Some (AnyString "handler failed") ∧
  (∀ acts', Await 0 (exec w acts') = AwaitBlocks).
Proof.
  intros w. split; [reflexivity|]. split; [reflexivity|].
  intros acts'.
  by rewrite (exec_crashed w acts' (AnyString "handler failed")).
Qed.

(** [TestFetcher_Success]: [Async(fetchUser, 5).Run(ctx)], awaited five
    times. *)
Lemma Await_success_witness :
  let acts := [AAsync fetchUser 5%Z; ARun 0 Background; AStart 0]
              ++ replicate 100 ATick in
  let w := exec world0 acts in
  Await 0 w = AwaitBlocks ∧
  Await 0 (step w (AFinish 0)) = AwaitReturns "user-5" None ∧
  ∀ acts', Await 0 (exec (step w (AFinish 0)) acts')
           = Await 0 (step w (AFinish 0)).
Proof.
  intros acts w.
  apply (Await_success acts 0
           (MkGoroutine 0 Background (Running 0 (Returns 100 "user-5" None)))
           (MkFetcher fetchUser 5%Z (MkResult "" None) (Some Open))
           0 (Returns 100 "user-5" None) 100 "user-5");
    [reflexivity..|vm_compute; lia].
Defined.

(** A handle run under a context that has been cancelled already. *)
Lemma cancelled_before_call_witness :
  let acts := [AAsync fetchUser 5%Z; ARun 0 cancelledCtx] in
  let w := exec world0 acts in
  let w' := step w (AStart 0) in
  (∃ f', heap w' !! 0 = Some f' ∧ result f' = MkResult "" (Some Canceled)) ∧
  Some Canceled ≠ None ∧
  ∀ acts',
    (EvCall 0 ∉ trace (exec w' acts')) ∧
    Await 0 (exec w' acts') = AwaitReturns "" (Some Canceled).
Proof.
  intros acts w w'.
  apply (cancelled_before_call acts 0 (MkGoroutine 0 cancelledCtx Spawned));
    reflexivity.
Defined.

(** [fetchUser] returns no error after 100ms, but the deadline of the
    context has passed at 5ms: the error of the context is stored. *)
Lemma cancellation_after_call_witness :
  let acts := [AAsync fetchUser 5%Z; ARun 0 deadlineCtx; AStart 0]
              ++ replicate 100 ATick in
  let w := exec world0 acts in
  ∃ f', heap (step w (AFinish 0)) !! 0 = Some f' ∧
        Value (result f') = "user-5" ∧
        (∀ ce, @None goerror = None → ctx_Err deadlineCtx (now w) = Some ce →
               Err (result f') = Some ce) ∧
        (∀ e, None = Some e → Err (result f') = Some e).
Proof.
  intros acts w.
  apply (cancellation_after_call acts 0
           (MkGoroutine 0 deadlineCtx (Running 0 (Returns 100 "user-5" None)))
           (MkFetcher fetchUser 5%Z (MkResult "" None) (Some Open))
           0 (Returns 100 "user-5" None) 100 "user-5" None);
    [reflexivity..|vm_compute; lia].
Defined.

(** [Run] called again after the goroutine has started. *)
Lemma Run_twice_witness :
  let acts := [AAsync fetchUser 5%Z] in
  let w := exec (Run 0 Background (exec world0 acts)).1 [AStart 0; ATick] in
  Run 0 cancelledCtx w = (w, 0) ∧
  step w (ARun 0 cancelledCtx) = w ∧
  spawned 0 w = 1.
Proof.
  intros acts w.
  apply (Run_twice acts [AStart 0; ATick] 0 Background cancelledCtx
           (MkFetcher fetchUser 5%Z (MkResult "" None) None)).
  reflexivity.
Defined.

(** [TestFetcher_AwaitBeforeRun_Panics] *)
Lemma Await_before_Run_witness :
  let acts : list (Action string Z) := [AAsync fetchUser 1%Z; ATick] in
  Await 0 (exec world0 acts)
  = AwaitPanics "fetcher not started, call Run() first".
Proof.
  intros acts.
  apply (Await_before_Run acts 0
           (MkFetcher fetchUser 1%Z (MkResult "" None) None)).
  - reflexivity.
  - repeat constructor; simpl; tauto.
Defined.

(** Two handlers that return are registered, [panicFn] panics. *)
Lemma recovery_log_then_handlers_witness :
  let acts := [ASetPanicHandlers [noteHandler; metricsHandler];
               AAsync panicFn 1%Z; ARun 0 Background; AStart 0] in
  let w := exec world0 acts in
  trace (step w (AFinish 0))
  = [EvGo 0; EvCall 0;
     EvLog ("[ERROR] Panic recovered - boom" +:+ newline
            +:+ "goroutine 0 [running]:");
     EvHandler "note" Background (AnyString "boom");
     EvHandler "metrics" Background (AnyString "boom");
     EvClose 0].
Proof.
  intros acts w.
  refine (proj1 (recovery_log_then_handlers acts 0
           (MkGoroutine 0 Background (Running 0 (Panics 0 (AnyString "boom"))))
           (MkFetcher panicFn 1%Z (MkResult "" None) (Some Open))
           0 (Panics 0 (AnyString "boom")) 0 (AnyString "boom")
           _ _ _ _ _ _ _));
    [reflexivity..|vm_compute; lia|].
  repeat constructor.
Defined.

(** A handler that panics is registered before one that returns: the
    second is never entered, and the channel is not closed. *)
Lemma handlers_after_a_panicking_one_skipped :
  let w := exec world0 [ASetPanicHandlers [failingHandler; noteHandler];
                        AAsync panicFn 1%Z; ARun 0 Background; AStart 0;
                        AFinish 0] in
  panicFn Background 1%Z 0 = Panics 0 (AnyString "boom") ∧
  globalPanicHandlers w = [failingHandler; noteHandler] ∧
  trace w
  = [EvGo 0; EvCall 0;
     EvLog ("[ERROR] Panic recovered - boom" +:+ newline
            +:+ "goroutine 0 [running]:");
     EvHandler "failing" Background (AnyString "boom")] ∧
  EvHandler "note" Background (AnyString "boom") ∉ trace w.
Proof.
  intros w. split; [reflexivity|]. split; [reflexivity|]. split; [reflexivity|].
  vm_compute. intros Hin.
  repeat (apply elem_of_cons in Hin as [Heq|Hin]; [discriminate|]).
  by apply elem_of_nil in Hin.
Qed.

(** The deadline passes at 5ms, [panicLate] panics at 10ms, the handler
    returns: the error of the panic is stored. *)
Lemma panic_error_kept_after_cancellation_witness :
  let acts := [ASetPanicHandlers [noteHandler]; AAsync panicLate 1%Z;
               ARun 0 deadlineCtx; AStart 0] ++ replicate 10 ATick in
  let w := exec world0 acts in
  ctx_Err deadlineCtx (now w) = Some DeadlineExceeded ∧
  ∃ f', heap (step w (AFinish 0)) !! 0 = Some f' ∧
        ch f' = Some Closed ∧
        result f'
        = MkResult "" (Some (MkError "[Fetcher.Async]: panic recovered: boom")) ∧
        (DeadlineExceeded ≠ Errorf "[Fetcher.Async]: panic recovered: "
                               (AnyString "boom") →
         Err (result f') ≠ Some DeadlineExceeded).
Proof.
  intros acts w. split; [reflexivity|].
  apply (panic_error_kept_after_cancellation acts 0
           (MkGoroutine 0 deadlineCtx (Running 0 (Panics 10 (AnyString "boom"))))
           (MkFetcher panicLate 1%Z (MkResult "" None) (Some Open))
           0 (Panics 10 (AnyString "boom")) 10 (AnyString "boom")
           DeadlineExceeded);
    [reflexivity..|vm_compute; lia|reflexivity|].
  repeat constructor.
Defined.

(** The same run with a handler that panics in turn: no error is stored
    at all, and the handle never completes. *)
Lemma no_error_stored_when_handler_panics :
  let w := exec world0 ([ASetPanicHandlers [failingHandler];
                         AAsync panicLate 1%Z; ARun 0 deadlineCtx; AStart 0]
                        ++ replicate 10 ATick ++ [AFinish 0]) in
  panicLate deadlineCtx 1%Z 0 = Panics 10 (AnyString "boom") ∧
  ctx_Err deadlineCtx (now w) = Some DeadlineExceeded ∧
  heap w !! 0
  = Some (MkFetcher panicLate 1%Z (MkResult "" None) (Some Open)) ∧
  (∀ acts', Await 0 (exec w acts') = AwaitBlocks).
Proof.
  intros w. split; [reflexivity|]. split; [reflexivity|]. split; [reflexivity|].
  intros acts'.
  by rewrite (exec_crashed w acts' (AnyString "handler failed")).
Qed.

End Runs.

(** ** The registry read without its lock *)

Module DataRaceFacts.
Import DataRace.

Lemma reach_per_spec_closed : closed_under_step reach_per_spec = true.
Proof. vm_compute. reflexivity. Qed.

Lemma reach_per_spec_run m schedule :
  m ∈ reach_per_spec → run m schedule ∈ reach_per_spec.
Proof.
  revert m. induction schedule as [|tid schedule IH]; intros m Hin; [done|].
  simpl. apply IH.
  pose proof reach_per_spec_closed as Hcl. unfold closed_under_step in Hcl.
  rewrite forallb_forall in Hcl.
  apply list_elem_of_In, Hcl, andb_prop in Hin as [Hs Hd].
  apply bool_decide_eq_true in Hs, Hd. by destruct tid.
Qed.

(** With the read lock the snapshot is atomic: under every schedule, a
    dispatch that has finished holds the old list or the new one. *)
Lemma Dispatch_per_spec_consistent schedule :
  consistent (run (start Dispatch_per_spec) schedule) = true.
Proof.
  assert (forallb consistent reach_per_spec = true) as Hall
    by (vm_compute; reflexivity).
  rewrite forallb_forall in Hall. apply Hall, list_elem_of_In.
  apply reach_per_spec_run. vm_compute. left.
Qed.

(** C9, on the code: [handlePanicErr] reads [globalPanicHandlers] without
    taking [handlersMu], so the lock that [SetPanicHandlers] holds does
    not keep it out.  Scheduled between the store of the pointer and the
    store of the length, it iterates over a slice that was never assigned:
    the new array, of one handler, with the old length of two. *)
Theorem handlePanicErr_reads_torn_slice :
  let m := run (start handlePanicErr)
             [Setter; Setter; Dispatcher; Dispatcher; Dispatcher; Dispatcher;
              Setter; Setter; Setter] in
  code (setter m) = [] ∧ code (dispatcher m) = [] ∧
  globalPanicHandlers m = replacement ∧
  snapshot (dispatcher m) = MkSlice (data replacement) (len registered)
                              (cap registered) ∧
  snapshot (dispatcher m) ≠ registered ∧
  snapshot (dispatcher m) ≠ replacement ∧
  cap replacement < len (snapshot (dispatcher m)) ∧
  consistent m = false.
Proof.
  intros m. vm_compute. repeat split; try discriminate. lia.
Qed.

End DataRaceFacts.

(** * Further properties

    ** What the sections of a goroutine leave alone *)

Section MoreFrames.
Context {T A : Type} `{Zero T}.

Implicit Types (w : World T A) (f : Fetcher T A) (l g : nat)
  (thr : Goroutine T) (acts : list (Action T A)).

Lemma handlers_store_result l res w :
  globalPanicHandlers (store_result l res w) = globalPanicHandlers w.
Proof. unfold store_result. by destruct (heap w !! l). Qed.

Lemma handlers_store_Err l e w :
  globalPanicHandlers (store_Err l e w) = globalPanicHandlers w.
Proof. unfold store_Err. by destruct (heap w !! l). Qed.

Lemma handlers_close_ch l w :
  globalPanicHandlers (close_ch l w) = globalPanicHandlers w.
Proof.
  unfold close_ch. destruct (heap w !! l) as [f|]; [|done].
  by destruct (ch f) as [[|]|].
Qed.

Lemma handlers_set_status g st w :
  globalPanicHandlers (set_status g st w) = globalPanicHandlers w.
Proof. unfold set_status. by destruct (threads w !! g). Qed.

Lemma handlers_exit_goroutine g w :
  globalPanicHandlers (exit_goroutine g w) = globalPanicHandlers w.
Proof.
  unfold exit_goroutine. destruct (crashed w); [done|].
  apply handlers_set_status.
Qed.

Lemma handlers_deferred g l ctx r w :
  globalPanicHandlers (deferred g l ctx r w) = globalPanicHandlers w.
Proof.
  unfold deferred. destruct r as [p|].
  - destruct (handlePanicErr g ctx p (globalPanicHandlers w)) as [evs [p'|]].
    + done.
    + by rewrite handlers_exit_goroutine, handlers_close_ch, handlers_store_Err.
  - by rewrite handlers_exit_goroutine, handlers_close_ch.
Qed.

(** Only [SetPanicHandlers] changes the registered handlers. *)
Lemma handlers_step w a :
  (∀ handlers, a ≠ ASetPanicHandlers handlers) →
  globalPanicHandlers (step w a) = globalPanicHandlers w.
Proof.
  intros Hno. unfold step. destruct (crashed w); [done|].
  destruct a as [fn arg|l ctx|g|g|handlers|]; try done.
  - unfold Run. destruct (heap w !! l) as [f|]; [|done]. by destruct (ch f).
  - unfold goroutine_start.
    destruct (threads w !! g) as [thr|]; [|done].
    destruct (g_status thr); try done.
    destruct (heap w !! g_handle thr) as [f|]; [|done].
    destruct (ctx_Done (g_ctx thr) (now w)).
    + by rewrite handlers_deferred, handlers_store_result.
    + by rewrite handlers_set_status.
  - unfold goroutine_finish.
    destruct (threads w !! g) as [thr|]; [|done].
    destruct (g_status thr) as [|t0 [d val err|d r|]|]; try done.
    + destruct (t0 + d <=? now w); [|done].
      by rewrite handlers_deferred, handlers_store_result.
    + destruct (t0 + d <=? now w); [|done]. by rewrite handlers_deferred.
  - by destruct (Hno handlers).
Qed.

Lemma thread_set_status g' st w g :
  g ≠ g' → threads (set_status g' st w) !! g = threads w !! g.
Proof.
  intros Hne. unfold set_status.
  destruct (threads w !! g') as [thr|]; [|done]. simpl.
  by rewrite list_lookup_insert_ne.
Qed.

Lemma thread_exit_goroutine g' w g :
  g ≠ g' → threads (exit_goroutine g' w) !! g = threads w !! g.
Proof.
  intros Hne. unfold exit_goroutine. destruct (crashed w); [done|].
  by apply thread_set_status.
Qed.

Lemma thread_deferred g' l ctx r w g :
  g ≠ g' → threads (deferred g' l ctx r w) !! g = threads w !! g.
Proof.
  intros Hne. unfold deferred. destruct r as [p|].
  - destruct (handlePanicErr g' ctx p (globalPanicHandlers w)) as [evs [p'|]].
    + done.
    + rewrite thread_exit_goroutine by done.
      by rewrite threads_close_ch, threads_store_Err.
  - rewrite thread_exit_goroutine by done. by rewrite threads_close_ch.
Qed.

(** A step that is not a section of goroutine [g] leaves that goroutine
    as it is. *)
Lemma thread_frame w a g thr :
  ¬ is_section_of g a →
  threads w !! g = Some thr → threads (step w a) !! g = Some thr.
Proof.
  intros Hno Hg. unfold step. destruct (crashed w); [done|].
  destruct a as [fn arg|l ctx|g'|g'|handlers|]; try done.
  - unfold Run. destruct (heap w !! l) as [f|]; [|done].
    destruct (ch f); [done|]. simpl. by apply lookup_app_l_Some.
  - assert (g ≠ g') as Hne by (intros ->; by apply Hno).
    rewrite <- Hg. unfold goroutine_start.
    destruct (threads w !! g') as [thr'|]; [|done].
    destruct (g_status thr'); try done.
    destruct (heap w !! g_handle thr') as [f|]; [|done].
    destruct (ctx_Done (g_ctx thr') (now w)).
    + rewrite thread_deferred by done. by rewrite threads_store_result.
    + by rewrite thread_set_status.
  - assert (g ≠ g') as Hne by (intros ->; by apply Hno).
    rewrite <- Hg. unfold goroutine_finish.
    destruct (threads w !! g') as [thr'|]; [|done].
    destruct (g_status thr') as [|t0 [d val err|d r|]|]; try done.
    + destruct (t0 + d <=? now w); [|done].
      rewrite thread_deferred by done. by rewrite threads_store_result.
    + destruct (t0 + d <=? now w); [|done]. by rewrite thread_deferred.
Qed.

Lemma exec_snoc w acts a : exec w (acts ++ [a]) = step (exec w acts) a.
Proof. by rewrite exec_app. Qed.

(** A process that is alive at the end was alive all along. *)
Lemma alive_prefix w acts acts' :
  crashed (exec w (acts ++ acts')) = None → crashed (exec w acts) = None.
Proof.
  rewrite exec_app. destruct (crashed (exec w acts)) as [p|] eqn:Hcr; [|done].
  by rewrite (exec_crashed _ acts' p Hcr), Hcr.
Qed.

Lemma exec_ticks w n :
  crashed w = None →
  exec w (replicate n ATick)
  = MkWorld (heap w) (threads w) (globalPanicHandlers w) (trace w)
      (now w + n) None.
Proof.
  revert w. induction n as [|n IH]; intros w Hcr.
  - simpl. destruct w. simpl in *. rewrite Nat.add_0_r. by subst.
  - assert (step w ATick = tick w) as Hs by (unfold step; by rewrite Hcr).
    unfold exec in *. simpl. rewrite Hs, IH by done. simpl.
    f_equal. lia.
Qed.

End MoreFrames.

(** ** The handle from [Async] to [Await] *)

Section MoreProperties.
Context {T A : Type} `{Zero T}.

Implicit Types (w : World T A) (f : Fetcher T A) (l g : nat)
  (thr : Goroutine T) (acts : list (Action T A)).

Lemma thread_handle_in_handles w g thr :
  threads w !! g = Some thr → g_handle thr ∈ handles w.
Proof.
  intros Hg. unfold handles. apply list_elem_of_fmap. exists thr.
  split; [done|]. apply list_elem_of_lookup. by exists g.
Qed.

(** X1: the computation does not start until [Run] is called: as long as
    no [Run] has been called on a handle, no goroutine has been spawned
    for it and its [Fn] has not been entered, whatever else has run. *)
Theorem Fn_not_entered_before_Run acts l :
  Forall (λ a, ¬ is_Run_of l a) acts →
  (EvCall l ∉ trace (exec init_world acts)) ∧
  spawned l (exec init_world acts) = 0.
Proof.
  intros Hno.
  assert (wf (exec (init_world (T:=T) (A:=A)) acts)) as Hwf
    by apply wf_reachable.
  assert (l ∉ handles (exec (init_world (T:=T) (A:=A)) acts)) as Hnin.
  { intros Hin. apply handles_exec_Run in Hin.
    by apply (Forall_not_Exists (is_Run_of l) acts). }
  split.
  - intros Hin.
    destruct (wf_calls _ Hwf l Hin) as (g & thr & Hg & <- & _).
    by apply Hnin, (thread_handle_in_handles _ g).
  - unfold spawned. by rewrite filter_eq_absent.
Qed.

(** X2: once [Run] has been called on a handle, [Await] on it never
    panics again, whatever runs afterwards: it waits or it returns. *)
Theorem Await_after_Run_never_panics acts acts' l ctx f :
  let w0 := exec init_world acts in
  let w := exec (Run l ctx w0).1 acts' in
  heap w0 !! l = Some f →
  Await l w = AwaitBlocks ∨ ∃ val err, Await l w = AwaitReturns val err.
Proof.
  intros w0 w Hf.
  assert (wf w0) as Hwf0 by apply wf_reachable.
  assert (wf (Run l ctx w0).1) as Hwf1 by (by apply wf_Run).
  assert (wf w) as Hwf by (by apply wf_exec).
  assert (l ∈ handles (Run l ctx w0).1) as Hin1.
  { destruct (ch f) as [c|] eqn:Hc.
    - rewrite (Run_started w0 l ctx f); [|done|by rewrite Hc]. simpl.
      destruct (wf_started w0 Hwf0 l f Hf) as (g & thr & Hg & <-);
        [by rewrite Hc|].
      by apply (thread_handle_in_handles _ g).
    - destruct (Run_spawns w0 l ctx f Hf Hc) as [Hg _].
      by apply (thread_handle_in_handles _ _ _ Hg). }
  assert (l ∈ handles w) as Hin by (by apply handles_exec_mono).
  destruct (handles_started w l Hwf Hin) as (f' & Hf' & Hc').
  unfold Await. rewrite Hf'.
  destruct (ch f') as [[|]|]; [by left|right; by eexists _, _|done].
Qed.

(** X3: [Async(fn, arg).Run(ctx)] followed by [Await()]: in a live
    process, if the context has not fired when the goroutine starts and
    the call [fn(ctx, arg)] returns [(val, err)] after [d] ticks, then once
    the goroutine has run, [Await] on the handle that [Async] returned
    gives [val] with [err], or with the error of the context if [err] is
    nil and the context has fired in the meantime. *)
Theorem Async_Run_Await acts fn arg ctx d val err :
  let w := exec init_world acts in
  let l := (Async fn arg w).2 in
  let g := length (threads w) in
  crashed w = None →
  ctx_Done ctx (now w) = false →
  fn ctx arg (now w) = Returns d val err →
  Await l (exec w ([AAsync fn arg; ARun l ctx; AStart g]
                   ++ replicate d ATick ++ [AFinish g]))
  = AwaitReturns val (merge_err ctx (now w + d) err).
Proof.
  intros w l g Hcr Hdone Hfn.
  assert (wf w) as Hwf by apply wf_reachable.
  set (f0 := new_Fetcher fn arg).
  set (wA := step w (AAsync fn arg)).
  set (wB := step wA (ARun l ctx)).
  set (wC := step wB (AStart g)).
  set (wD := exec wC (replicate d ATick)).
  assert (exec w ([AAsync fn arg; ARun l ctx; AStart g]
                  ++ replicate d ATick ++ [AFinish g])
          = step wD (AFinish g)) as ->.
  { rewrite app_assoc, exec_snoc. f_equal; by rewrite ?exec_app. }
  assert (wA = (Async fn arg w).1) as HwA by (unfold wA, step; by rewrite Hcr).
  assert (heap wA !! l = Some f0) as HfA.
  { rewrite HwA. simpl. by apply list_lookup_middle. }
  assert (crashed wA = None) as HcrA by (by rewrite HwA).
  assert (wB = (Run l ctx wA).1) as HwB by (unfold wB, step; by rewrite HcrA).
  destruct (Run_spawns wA l ctx f0 HfA eq_refl) as [HgB _].
  rewrite <- HwB in HgB.
  assert (length (threads wA) = g) as Hlen by (by rewrite HwA).
  rewrite Hlen in HgB.
  assert (crashed wB = None ∧ now wB = now w ∧
          heap wB !! l = Some (MkFetcher fn arg (MkResult zero None) (Some Open)))
    as (HcrB & HnowB & HfB).
  { rewrite HwB, (Run_created wA l ctx f0) by done. simpl.
    rewrite list_lookup_insert_eq by (by eapply lookup_lt_Some).
    by rewrite HwA. }
  destruct (start_enters_Fn wB g _ _ HcrB HgB eq_refl HfB) as [HgC _].
  { simpl. by rewrite HnowB. }
  fold wC in HgC. simpl in HgC. rewrite HnowB, Hfn in HgC.
  assert (crashed wC = None ∧ now wC = now w) as [HcrC HnowC].
  { unfold wC. rewrite step_AStart by done.
    rewrite (goroutine_start_call wB g _ _ HgB eq_refl HfB); [by simpl|].
    simpl. by rewrite HnowB. }
  assert (threads wD = threads wC ∧ now wD = now w + d ∧ crashed wD = None)
    as (HthD & HnowD & HcrD).
  { unfold wD. rewrite exec_ticks by done. simpl. by rewrite HnowC. }
  assert (wf wD) as HwfD.
  { unfold wD, wC, wB, wA. by apply wf_exec, wf_step, wf_step, wf_step. }
  rewrite <- HthD in HgC.
  destruct (finish_returned wD g _ (now w) d val err HwfD HcrD HgC eq_refl)
    as (f' & Hf' & Heq); [lia|].
  rewrite Heq. simpl. rewrite completed_world_Await; [|by eapply lookup_lt_Some].
  simpl. by rewrite HnowD.
Qed.

(** X4: the handle has no timeout of its own: while the call of [Fn]
    does not come back, [Await] waits in every later state, whether or
    not the context has fired in the meantime. *)
Theorem Await_blocks_while_Fn_hangs acts acts' g thr f t0 b :
  let w := exec init_world acts in
  threads w !! g = Some thr →
  heap w !! g_handle thr = Some f →
  g_status thr = Running t0 b →
  Fn f (g_ctx thr) (Arg f) t0 = Hangs →
  Await (g_handle thr) (exec w acts') = AwaitBlocks.
Proof.
  intros w Hg Hf Hst HFn.
  assert (wf w) as Hwf by apply wf_reachable.
  rewrite (Running_is_Fn w g thr f t0 b Hwf Hg Hf Hst), HFn in Hst.
  clear Hf HFn f b.
  assert (threads (exec w acts') !! g = Some thr) as Hg'.
  { clear Hwf. generalize dependent w. intros w.
    induction acts' as [|a acts' IH] using rev_ind; intros Hg; [done|].
    rewrite exec_snoc. specialize (IH Hg).
    assert (is_section_of g a ∨ ¬ is_section_of g a) as [Hsec|Hno].
    { destruct a as [| |g'|g'| |]; simpl; try (right; tauto);
        destruct (decide (g' = g)); tauto. }
    - unfold step. destruct (crashed (exec w acts')); [done|].
      destruct a as [| |g'|g'| |]; try done; simpl in Hsec; subst g'.
      + unfold goroutine_start. by rewrite IH, Hst.
      + unfold goroutine_finish. by rewrite IH, Hst.
    - by apply thread_frame. }
  destruct (wf_thread_open (exec w acts') g thr) as (f & Hf & Hc & _);
    [by apply wf_exec|done|by rewrite Hst|].
  unfold Await. by rewrite Hf, Hc.
Qed.

Lemma Await_open w l f :
  heap w !! l = Some f → ch f = Some Open → Await l w = AwaitBlocks.
Proof. intros Hf Hc. unfold Await. by rewrite Hf, Hc. Qed.





Lemma always_returns_normally ctx r handlers :
  Forall always_returns handlers → Forall (returns_normally ctx r) handlers.
Proof.
  intros Hall. eapply Forall_impl; [exact Hall|]. intros fn Hfn. apply Hfn.
Qed.

Lemma sections_keep_alive w g :
  wf w → crashed w = None → Forall always_returns (globalPanicHandlers w) →
  crashed (goroutine_start g w) = None ∧ crashed (goroutine_finish g w) = None.
Proof.
  intros Hwf Hcr Hok.
  destruct (threads w !! g) as [thr|] eqn:Hg;
    [|by unfold goroutine_start, goroutine_finish; rewrite Hg].
  destruct (g_status thr) as [|t0 b|] eqn:Hst;
    [| |by unfold goroutine_start, goroutine_finish; rewrite Hg, Hst].
  - destruct (wf_thread_open w g thr Hwf Hg) as (f & Hf & Hc & _);
      [by rewrite Hst|].
    split; [|by unfold goroutine_finish; rewrite Hg, Hst].
    destruct (ctx_Done (g_ctx thr) (now w)) eqn:Hdone.
    + by rewrite (goroutine_start_cancelled w g thr f).
    + by rewrite (goroutine_start_call w g thr f).
  - destruct (wf_thread_open w g thr Hwf Hg) as (f & Hf & Hc & _);
      [by rewrite Hst|].
    split; [by unfold goroutine_start; rewrite Hg, Hst|].
    destruct b as [d val err|d r|];
      [| |by unfold goroutine_finish; rewrite Hg, Hst].
    + destruct (decide (t0 + d ≤ now w)) as [Hdue|Hearly].
      * by rewrite (goroutine_finish_returned w g thr f t0 d val err).
      * unfold goroutine_finish. rewrite Hg, Hst.
        by destruct (Nat.leb_spec (t0 + d) (now w)); [lia|].
    + destruct (decide (t0 + d ≤ now w)) as [Hdue|Hearly].
      * rewrite (goroutine_finish_recovered w g thr f t0 d r); try done.
        rewrite handlePanicErr_ok; [done|].
        by apply always_returns_normally.
      * unfold goroutine_finish. rewrite Hg, Hst.
        by destruct (Nat.leb_spec (t0 + d) (now w)); [lia|].
Qed.

(** X6: panics of wrapped functions never end the process: as long as
    every handler ever registered returns, the process is alive after any
    sequence of steps, whatever the wrapped functions do. *)
Theorem process_never_crashes acts :
  Forall registers_returning acts →
  crashed (exec (init_world (T:=T) (A:=A)) acts) = None.
Proof.
  intros Hacts.
  assert (crashed (exec (init_world (T:=T) (A:=A)) acts) = None ∧
          Forall always_returns
            (globalPanicHandlers (exec (init_world (T:=T) (A:=A)) acts)))
    as [Hcr _]; [|done].
  induction acts as [|a acts IH] using rev_ind; [by split|].
  apply Forall_app in Hacts as [Hacts Ha].
  rewrite Forall_singleton in Ha.
  destruct (IH Hacts) as [Hcr Hok]. clear IH.
  rewrite exec_snoc.
  pose proof (wf_reachable (T:=T) (A:=A) acts) as Hwf.
  set (w := exec init_world acts) in *.
  destruct a as [fn arg|l ctx|g|g|handlers|].
  - split; [by unfold step; rewrite Hcr|]. by rewrite handlers_step.
  - split; [|by rewrite handlers_step].
    unfold step, Run. rewrite Hcr.
    destruct (heap w !! l) as [f|]; [|done]. by destruct (ch f).
  - split; [|by rewrite handlers_step].
    rewrite step_AStart by done. by apply sections_keep_alive.
  - split; [|by rewrite handlers_step].
    rewrite step_AFinish by done. by apply sections_keep_alive.
  - unfold step. rewrite Hcr. simpl. split; [done|apply Ha].
  - split; [by unfold step; rewrite Hcr|]. by rewrite handlers_step.
Qed.

Lemma range_handlers_panics ctx r ok bad rest p :
  Forall (returns_normally ctx r) ok → h_call bad ctx r = HPanics p →
  range_handlers ctx r (ok ++ bad :: rest)
  = ((λ fn, EvHandler (h_name fn) ctx r) <$> (ok ++ [bad]), Some p).
Proof.
  intros Hok Hbad. induction Hok as [|fn ok Hfn _ IH]; simpl.
  - by rewrite Hbad.
  - by rewrite Hfn, IH.
Qed.

(** X7: the panic of a handler is not recovered: when the call of [Fn]
    has panicked and the handlers registered are [ok ++ bad :: rest],
    where those of [ok] return and [bad] panics with [p], the recovery
    writes its log line, enters the handlers of [ok] and [bad] in order
    and none of [rest], and the process ends with [p]; no error is stored,
    the channel stays open and [Await] never returns. *)
Theorem handler_panic_ends_process acts acts' g thr f t0 b d r ok bad rest p :
  let w := exec init_world acts in
  let w' := step w (AFinish g) in
  crashed w = None →
  threads w !! g = Some thr →
  heap w !! g_handle thr = Some f →
  g_status thr = Running t0 b →
  Fn f (g_ctx thr) (Arg f) t0 = Panics d r →
  t0 + d ≤ now w →
  globalPanicHandlers w = ok ++ bad :: rest →
  Forall (returns_normally (g_ctx thr) r) ok →
  h_call bad (g_ctx thr) r = HPanics p →
  crashed w' = Some p ∧
  trace w'
  = trace w
    ++ EvLog (log_line r (debug_Stack g))
       :: ((λ fn, EvHandler (h_name fn) (g_ctx thr) r) <$> (ok ++ [bad])) ∧
  heap w' = heap w ∧
  Await (g_handle thr) (exec w' acts') = AwaitBlocks.
Proof.
  intros w w' Hcr Hg Hf Hst HFn Hdue Hhs Hok Hbad.
  assert (wf w) as Hwf by apply wf_reachable.
  rewrite (Running_is_Fn w g thr f t0 b Hwf Hg Hf Hst), HFn in Hst.
  assert (handlePanicErr g (g_ctx thr) r (globalPanicHandlers w)
          = (EvLog (log_line r (debug_Stack g))
               :: ((λ fn, EvHandler (h_name fn) (g_ctx thr) r)
                     <$> (ok ++ [bad])), Some p)) as Hh.
  { unfold handlePanicErr.
    by rewrite Hhs, (range_handlers_panics _ _ ok bad rest p). }
  assert (w' = crash p (emit (handlePanicErr g (g_ctx thr) r
                                (globalPanicHandlers w)).1 w)) as Hw'.
  { unfold w'. rewrite step_AFinish by done.
    apply (goroutine_finish_crashed w g thr t0 d r Hg Hst Hdue).
    by rewrite Hh. }
  rewrite Hh in Hw'. simpl in Hw'.
  split; [by rewrite Hw'|]. split; [by rewrite Hw'|]. split; [by rewrite Hw'|].
  rewrite (exec_crashed w' acts' p) by (by rewrite Hw').
  destruct (wf_thread_open w g thr Hwf Hg) as (f' & Hf' & Hc' & _);
    [by rewrite Hst|].
  apply Await_open with f'; [|done]. by rewrite Hw'.
Qed.

Lemma last_set_snoc acts a :
  last_set (acts ++ [a])
  = match a with
    | ASetPanicHandlers handlers => handlers
    | _ => last_set acts
    end.
Proof. unfold last_set. by rewrite fold_left_app. Qed.

(** X8: the registry is replaced wholesale and by [SetPanicHandlers]
    only: in a live process the registered handlers are exactly those of
    the last call of [SetPanicHandlers] (none before the first call),
    whatever handles were created, run, completed or recovered since. *)
Theorem registry_is_last_set acts :
  crashed (exec (init_world (T:=T) (A:=A)) acts) = None →
  globalPanicHandlers (exec (init_world (T:=T) (A:=A)) acts) = last_set acts.
Proof.
  induction acts as [|a acts IH] using rev_ind; [done|].
  intros Hcr. pose proof (alive_prefix _ _ _ Hcr) as Hcr0.
  specialize (IH Hcr0). rewrite exec_snoc, last_set_snoc.
  destruct a as [fn arg|l ctx|g|g|handlers|];
    try (by rewrite handlers_step).
  unfold step. by rewrite Hcr0.
Qed.

(** X9: handles do not interfere: a step that is neither a [Run] of a
    handle nor a section of its goroutine leaves the handle, and what
    [Await] does on it, as they are; this holds for the sections of every
    other goroutine, whether they return, recover a panic or end the
    process. *)
Theorem steps_of_others_leave_handle acts a l f :
  let w := exec init_world acts in
  heap w !! l = Some f →
  ¬ is_Run_of l a →
  (∀ g thr, threads w !! g = Some thr → g_handle thr = l →
            ¬ is_section_of g a) →
  heap (step w a) !! l = Some f ∧ Await l (step w a) = Await l w.
Proof.
  intros w Hf Hrun Hsec.
  assert (wf w) as Hwf by apply wf_reachable.
  assert (heap (step w a) !! l = Some f) as Hf';
    [|split; [done|]; unfold Await; by rewrite Hf, Hf'].
  destruct (crashed w) as [p|] eqn:Hcr; [by unfold step; rewrite Hcr|].
  assert (∀ g w', section_outcome w g w' → is_section_of g a →
                  heap w' !! l = Some f) as Hout.
  { intros g w' Ho Hga.
    destruct Ho as [|thr f' Hg Hst Hf0|thr f' res evs Hg Hlive Hf0 Hevs
                    |evs p Hevs]; try done.
    unfold completed_world. simpl.
    rewrite list_lookup_insert_ne; [done|].
    intros Heq. by apply (Hsec g thr Hg Heq). }
  destruct a as [fn arg|l' ctx|g|g|handlers|].
  - unfold step. rewrite Hcr. simpl. by apply lookup_app_l_Some.
  - unfold step, Run. rewrite Hcr.
    destruct (heap w !! l') as [f'|] eqn:Hf0; [|done].
    destruct (ch f'); [done|]. simpl.
    rewrite list_lookup_insert_ne; [done|]. intros ->. by apply Hrun.
  - rewrite step_AStart by done.
    apply (Hout g); [by apply goroutine_start_outcome|done].
  - rewrite step_AFinish by done.
    apply (Hout g); [by apply goroutine_finish_outcome|done].
  - unfold step. by rewrite Hcr.
  - unfold step. by rewrite Hcr.
Qed.

End MoreProperties.

(** ** The substring test of fetcher_test.go *)

Section Contains.

Lemma string_app_cons (x : Ascii.ascii) (a b : string) :
  String x a +:+ b = String x (a +:+ b).
Proof. reflexivity. Qed.

Lemma string_app_nil_l (b : string) : "" +:+ b = b.
Proof. reflexivity. Qed.

Lemma string_app_length (a b : string) :
  String.length (a +:+ b) = String.length a + String.length b.
Proof.
  induction a as [|c a IH]; [done|].
  rewrite string_app_cons. simpl. by rewrite IH.
Qed.

Lemma string_app_assoc (a b c : string) : (a +:+ b) +:+ c = a +:+ (b +:+ c).
Proof.
  induction a as [|x a IH]; [done|]. rewrite !string_app_cons. by rewrite IH.
Qed.

Lemma string_app_nil_r (a : string) : a +:+ "" = a.
Proof.
  induction a as [|x a IH]; [done|]. rewrite string_app_cons. by rewrite IH.
Qed.

Lemma string_length_0 (a : string) : String.length a = 0 → a = "".
Proof. by destruct a. Qed.

Lemma slice_to_last_app (a b : string) :
  b ≠ "" → slice_to_last (a +:+ b) = a +:+ slice_to_last b.
Proof.
  intros Hb. induction a as [|x a IH]; [done|].
  rewrite !string_app_cons. simpl. rewrite IH.
  destruct (a +:+ b) eqn:Hab; [|done].
  apply (f_equal String.length) in Hab. rewrite string_app_length in Hab.
  destruct b; [done|]. simpl in Hab. lia.
Qed.

Lemma slice_to_last_snoc (s : string) :
  s ≠ "" → ∃ c, s = slice_to_last s +:+ String c "".
Proof.
  induction s as [|x s IH]; [done|]. intros _.
  destruct s as [|y s]; [by exists x|].
  destruct IH as [c Hc]; [done|]. exists c.
  change (slice_to_last (String x (String y s)))
    with (String x (slice_to_last (String y s))).
  rewrite string_app_cons. by rewrite <- Hc.
Qed.

(** X10: [contains(s, substr)] is true exactly when [substr] occurs in
    [s], that is when [s] is some prefix, then [substr], then some
    suffix; in particular it is true for every [s] when [substr] is
    empty. *)
Theorem contains_spec (s substr : string) :
  contains s substr = true ↔ ∃ pre post, s = pre +:+ substr +:+ post.
Proof.
  remember (String.length s) as n eqn:Hn. revert s Hn.
  induction n as [n IH] using lt_wf_ind. intros s ->.
  rewrite contains_equation_1.
  destruct (String.length substr =? 0) eqn:H0.
  { apply Nat.eqb_eq, string_length_0 in H0 as ->. simpl.
    split; [|done]. intros _. by exists "", s. }
  apply Nat.eqb_neq in H0. simpl.
  destruct (Nat.leb_spec (String.length substr) (String.length s)) as [Hle|Hgt].
  2: { simpl. split; [done|]. intros (pre & post & ->).
       rewrite !string_app_length in Hgt. lia. }
  simpl. destruct (String.eqb_spec s substr) as [->|Hne].
  { simpl. split; [|done]. intros _. exists "", "".
    by rewrite string_app_nil_l, string_app_nil_r. }
  simpl. destruct (lt_dec (String.length substr) (String.length s)) as [Hlt|Hnlt].
  2: { split; [done|]. intros (pre & post & ->). exfalso. apply Hne.
       rewrite !string_app_length in Hle, Hnlt.
       assert (String.length pre = 0) as Hpre by lia.
       assert (String.length post = 0) as Hpost by lia.
       apply string_length_0 in Hpre as ->, Hpost as ->.
       by rewrite string_app_nil_l, string_app_nil_r. }
  assert (s ≠ "") as Hs by (destruct s; [simpl in *; lia|done]).
  pose proof (length_slice_from_1 s Hs) as Hl1.
  pose proof (length_slice_to_last s Hs) as Hl2.
  rewrite orb_true_iff.
  rewrite (IH (String.length (slice_from_1 s))) by (done || lia).
  rewrite (IH (String.length (slice_to_last s))) by (done || lia).
  split.
  - intros [(pre & post & Heq)|(pre & post & Heq)].
    + destruct s as [|c s]; [done|]. simpl in Heq. subst s.
      by exists (String c pre), post.
    + destruct (slice_to_last_snoc s Hs) as [c Hc].
      exists pre, (post +:+ String c "").
      rewrite Hc at 1. rewrite Heq. by rewrite !string_app_assoc.
  - intros (pre & post & Heq).
    destruct pre as [|c pre].
    + right. rewrite string_app_nil_l in Heq.
      exists "", (slice_to_last post). rewrite string_app_nil_l, Heq.
      apply slice_to_last_app. intros ->.
      apply Hne. by rewrite Heq, string_app_nil_r.
    + left. exists pre, post. by rewrite Heq.
Qed.

(** X11: the error that [Await] returns after a recovered panic passes
    the check of [TestFetcher_Panic] whatever the payload is:
    [contains(err.Error(), "panic recovered")] is true, and the text of
    the payload occurs in the message as well. *)
Theorem recovered_error_contains (r : any) :
  contains (Error (Errorf "[Fetcher.Async]: panic recovered: " r))
    "panic recovered" = true ∧
  contains (Error (Errorf "[Fetcher.Async]: panic recovered: " r))
    (fmt_v r) = true.
Proof.
  split; apply contains_spec.
  - by exists "[Fetcher.Async]: ", (": " +:+ fmt_v r).
  - exists "[Fetcher.Async]: panic recovered: ", "".
    by rewrite string_app_nil_r.
Qed.

End Contains.

(** ** Two calls of [SetPanicHandlers] at once *)

Module SettersFacts.
Import DataRace Setters.

Lemma slice_eta (h : SliceHeader) : MkSlice (data h) (len h) (cap h) = h.
Proof. by destruct h. Qed.

Lemma setters_inv_start h0 h1 h2 : setters_inv h0 h1 h2 (two_setters h0 h1 h2).
Proof. apply (inv_outside _ _ _ _ 0 0); auto. Qed.

Ltac first_inside k1 k2 base :=
  solve [apply (inv_first_inside _ _ _ _ k1 k2 base); simpl; auto; lia].
Ltac second_inside k1 k2 base :=
  solve [apply (inv_second_inside _ _ _ _ k1 k2 base); simpl; auto; lia].
Ltac both_outside k1 k2 :=
  solve [apply (inv_outside _ _ _ _ k1 k2); simpl; auto using slice_eta; tauto].

Lemma setters_inv_step h0 h1 h2 m tid :
  setters_inv h0 h1 h2 m → setters_inv h0 h1 h2 (step m tid).
Proof.
  intros Hinv. destruct m as [mem mu [c1 s1] [c2 s2]].
  destruct Hinv as [k1 k2 Hk1 Hk2 Hc1 Hc2 Hmu Hmem
                   |k1 k2 base Hk1 Hk2 Hc1 Hc2 Hmu Hmem
                   |k1 k2 base Hk1 Hk2 Hc1 Hc2 Hmu Hmem];
    simpl in Hc1, Hc2, Hmu, Hmem; subst c1 c2 mu.
  - destruct Hk1 as [-> | ->], Hk2 as [-> | ->], tid; simpl;
      first [ first_inside 1 0 mem | first_inside 1 5 mem
            | second_inside 0 1 mem | second_inside 5 1 mem
            | both_outside 5 0 | both_outside 0 5 | both_outside 5 5 ].
  - subst mem.
    assert (k1 = 1 ∨ k1 = 2 ∨ k1 = 3 ∨ k1 = 4) as Hk by lia.
    destruct Hk as [-> | [-> | [-> | ->]]], Hk2 as [-> | ->], tid; simpl;
      first [ first_inside 1 0 base | first_inside 2 0 base
            | first_inside 3 0 base | first_inside 4 0 base
            | first_inside 1 5 base | first_inside 2 5 base
            | first_inside 3 5 base | first_inside 4 5 base
            | both_outside 5 0 | both_outside 5 5 ].
  - subst mem.
    assert (k2 = 1 ∨ k2 = 2 ∨ k2 = 3 ∨ k2 = 4) as Hk by lia.
    destruct Hk as [-> | [-> | [-> | ->]]], Hk1 as [-> | ->], tid; simpl;
      first [ second_inside 0 1 base | second_inside 0 2 base
            | second_inside 0 3 base | second_inside 0 4 base
            | second_inside 5 1 base | second_inside 5 2 base
            | second_inside 5 3 base | second_inside 5 4 base
            | both_outside 0 5 | both_outside 5 5 ].
Qed.

Lemma setters_inv_run h0 h1 h2 m schedule :
  setters_inv h0 h1 h2 m → setters_inv h0 h1 h2 (run m schedule).
Proof.
  revert m. induction schedule as [|tid schedule IH]; intros m Hinv; [done|].
  simpl. by apply IH, setters_inv_step.
Qed.

(** X12: calls of [SetPanicHandlers] exclude one another: under every
    schedule of two concurrent calls, whenever [handlersMu] is free the
    variable holds a slice that was assigned whole (the initial one or
    one of the two arguments, never a mix of their words), and once both
    calls have returned it holds one of the two arguments and the mutex
    is free. *)
Theorem SetPanicHandlers_calls_exclude h0 h1 h2 schedule :
  let m := run (two_setters h0 h1 h2) schedule in
  (writer (handlersMu m) = false →
   globalPanicHandlers m = h0 ∨ globalPanicHandlers m = h1 ∨
   globalPanicHandlers m = h2) ∧
  (code (setter m) = [] → code (dispatcher m) = [] →
   writer (handlersMu m) = false ∧
   (globalPanicHandlers m = h1 ∨ globalPanicHandlers m = h2)).
Proof.
  intros m.
  pose proof (setters_inv_run h0 h1 h2 _ schedule (setters_inv_start h0 h1 h2))
    as Hinv. fold m in Hinv.
  destruct Hinv as [k1 k2 Hk1 Hk2 Hc1 Hc2 Hmu Hmem
                   |k1 k2 base Hk1 Hk2 Hc1 Hc2 Hmu Hmem
                   |k1 k2 base Hk1 Hk2 Hc1 Hc2 Hmu Hmem].
  - split.
    + intros _. tauto.
    + intros He1 He2. rewrite Hmu. split; [done|].
      rewrite He1 in Hc1. rewrite He2 in Hc2.
      destruct Hk1 as [-> | ->]; [done|]. destruct Hk2 as [-> | ->]; [done|].
      destruct Hmem as [(? & _)|[(_ & ?)|(_ & ?)]]; [done|by left|by right].
  - split.
    + rewrite Hmu. done.
    + intros He1 _. rewrite He1 in Hc1.
      assert (k1 = 1 ∨ k1 = 2 ∨ k1 = 3 ∨ k1 = 4) as Hk by lia.
      by destruct Hk as [-> | [-> | [-> | ->]]].
  - split.
    + rewrite Hmu. done.
    + intros _ He2. rewrite He2 in Hc2.
      assert (k2 = 1 ∨ k2 = 2 ∨ k2 = 3 ∨ k2 = 4) as Hk by lia.
      by destruct Hk as [-> | [-> | [-> | ->]]].
Qed.

End SettersFacts.

(** ** Further runs *)

Module MoreRuns.
Import Tests.

(** A handle is created, time passes and the scheduler is asked to run
    goroutine 0, which does not exist. *)
Lemma Fn_not_entered_before_Run_witness :
  let acts : list (Action string Z) :=
    [AAsync fetchUser 5%Z; ATick; AStart 0; AFinish 0] in
  (EvCall 0 ∉ trace (exec world0 acts)) ∧ spawned 0 (exec world0 acts) = 0.
Proof.
  intros acts. apply (Fn_not_entered_before_Run acts 0).
  repeat constructor; simpl; tauto.
Defined.

Lemma Await_after_Run_never_panics_witness :
  let w := exec (Run 0 Background (exec world0 [AAsync fetchUser 5%Z])).1
             [ATick] in
  Await 0 w = AwaitBlocks ∨ ∃ val err, Await 0 w = AwaitReturns val err.
Proof.
  intros w.
  apply (Await_after_Run_never_panics [AAsync fetchUser 5%Z] [ATick] 0
           Background (MkFetcher fetchUser 5%Z (MkResult "" None) None)).
  reflexivity.
Defined.

(** [Async(fetchUser, 5).Run(ctx)] under a deadline that passes during
    the call: the value of [fetchUser] comes with the error of the
    context. *)
Lemma Async_Run_Await_witness :
  let acts : list (Action string Z) :=
    [ASetPanicHandlers [noteHandler]; ATick] in
  let w := exec world0 acts in
  Await 0 (exec w ([AAsync fetchUser 5%Z; ARun 0 deadlineCtx; AStart 0]
                   ++ replicate 100 ATick ++ [AFinish 0]))
  = AwaitReturns "user-5" (Some DeadlineExceeded).
Proof.
  intros acts w.
  apply (Async_Run_Await acts fetchUser 5%Z deadlineCtx 100 "user-5" None);
    reflexivity.
Defined.

(** The deadline passes at 5ms, the function never returns: after 50ms
    [Await] still waits. *)
Lemma Await_blocks_while_Fn_hangs_witness :
  let acts := [AAsync neverReturns 1%Z; ARun 0 deadlineCtx; AStart 0] in
  Await 0 (exec (exec world0 acts) (replicate 50 ATick ++ [AFinish 0]))
  = AwaitBlocks.
Proof.
  intros acts.
  apply (Await_blocks_while_Fn_hangs acts (replicate 50 ATick ++ [AFinish 0]) 0
           (MkGoroutine 0 deadlineCtx (Running 0 Hangs))
           (MkFetcher neverReturns 1%Z (MkResult "" None) (Some Open))
           0 Hangs);
    reflexivity.
Defined.


(** A handler that returns is registered and [panicFn] panics: the
    process lives on. *)
Lemma process_never_crashes_witness :
  crashed (exec world0 [ASetPanicHandlers [noteHandler]; AAsync panicFn 1%Z;
                        ARun 0 Background; AStart 0; AFinish 0]) = None.
Proof.
  apply (process_never_crashes
           [ASetPanicHandlers [noteHandler]; AAsync panicFn 1%Z;
            ARun 0 Background; AStart 0; AFinish 0]).
  repeat constructor.
Defined.

(** [note] returns, [failing] panics, [metrics] is never entered. *)
Lemma handler_panic_ends_process_witness :
  let acts := [ASetPanicHandlers [noteHandler; failingHandler; metricsHandler];
               AAsync panicFn 1%Z; ARun 0 Background; AStart 0] in
  let w := exec world0 acts in
  let w' := step w (AFinish 0) in
  crashed w' = Some (AnyString "handler failed") ∧
  trace w'
  = trace w
    ++ EvLog (log_line (AnyString "boom") (debug_Stack 0))
       :: ((λ fn, EvHandler (h_name fn) Background (AnyString "boom"))
             <$> ([noteHandler] ++ [failingHandler])) ∧
  heap w' = heap w ∧
  Await 0 (exec w' [ATick; AFinish 0]) = AwaitBlocks.
Proof.
  intros acts w w'.
  apply (handler_panic_ends_process acts [ATick; AFinish 0] 0
           (MkGoroutine 0 Background (Running 0 (Panics 0 (AnyString "boom"))))
           (MkFetcher panicFn 1%Z (MkResult "" None) (Some Open))
           0 (Panics 0 (AnyString "boom")) 0 (AnyString "boom")
           [noteHandler] failingHandler [metricsHandler]
           (AnyString "handler failed"));
    [reflexivity..|vm_compute; lia|reflexivity| |reflexivity].
  repeat constructor.
Defined.

(** [SetPanicHandlers(note)], a recovered panic, then
    [SetPanicHandlers()] as at the end of
    [TestFetcher_PanicHandlerCalled]. *)
Lemma registry_is_last_set_witness :
  let acts := [ASetPanicHandlers [noteHandler]; AAsync panicFn 1%Z;
               ARun 0 Background; AStart 0; AFinish 0;
               ASetPanicHandlers []] in
  globalPanicHandlers (exec world0 acts) = [].
Proof.
  intros acts. apply (registry_is_last_set acts). reflexivity.
Defined.

(** Two handles: the goroutine of the second recovers a panic while the
    first is still in its call. *)
Lemma steps_of_others_leave_handle_witness :
  let acts := [AAsync fetchUser 5%Z; AAsync panicFn 1%Z; ARun 0 Background;
               ARun 1 Background; AStart 0; AStart 1] in
  let w := exec world0 acts in
  heap (step w (AFinish 1)) !! 0
  = Some (MkFetcher fetchUser 5%Z (MkResult "" None) (Some Open)) ∧
  Await 0 (step w (AFinish 1)) = Await 0 w.
Proof.
  intros acts w.
  apply (steps_of_others_leave_handle acts (AFinish 1) 0); [reflexivity|tauto|].
  intros g thr Hg Hl Hsec. simpl in Hsec. subst g.
  vm_compute in Hg. injection Hg as <-. discriminate.
Defined.

(** The first call runs to its end, then the second. *)
Lemma SetPanicHandlers_calls_exclude_witness :
  let m := DataRace.run
             (Setters.two_setters DataRace.registered DataRace.replacement
                (DataRace.MkSlice 3 3 4))
             (replicate 5 DataRace.Setter ++ replicate 5 DataRace.Dispatcher) in
  DataRace.writer (DataRace.handlersMu m) = false ∧
  (DataRace.globalPanicHandlers m = DataRace.replacement ∨
   DataRace.globalPanicHandlers m = DataRace.MkSlice 3 3 4).
Proof.
  intros m.
  apply (SettersFacts.SetPanicHandlers_calls_exclude DataRace.registered
           DataRace.replacement (DataRace.MkSlice 3 3 4)
           (replicate 5 DataRace.Setter ++ replicate 5 DataRace.Dispatcher));
    reflexivity.
Defined.

End MoreRuns.
